(** * Headless UI (Vue): label registry, dialog, focus trap and transitions

    A shallow embedding of the interaction logic of
    [packages/@headlessui-vue]: the label registry of [label.ts], the
    set-up, key, mouse and scroll-lock logic of the dialog component, and
    models of the focus trap, the transition engine and the nested
    transition coordinator that the dialog and the transition tests drive.

    Reactive references are modelled by explicit state passing: a function
    that mutates a [ref] takes the old value and returns the new one; a
    function that throws returns a [Result]. *)

From stdpp Require Import gmap strings list fin_maps pretty.

Open Scope string_scope.

(** ** Errors *)

(** [throw new Error(message)] *)
Record Error := mkError { message : string }.

Inductive Result (A : Type) : Type :=
| Throw (e : Error)
| Return (a : A).
Arguments Throw {A} e.
Arguments Return {A} a.

(** DOM elements are identified by a number. *)
Abbreviation Element := nat (only parsing).

(** * label.ts *)
Module Label.

(** [Array.prototype.indexOf] on an array of strings, [None] for [-1]. *)
Fixpoint indexOf (value : string) (l : list string) : option nat :=
  match l with
  | [] => None
  | x :: l' => if decide (x = value) then Some 0 else S <$> indexOf value l'
  end.

(** [Array.prototype.join] *)
Fixpoint join (sep : string) (l : list string) : string :=
  match l with
  | [] => ""
  | [x] => x
  | x :: l' => x ++ sep ++ join sep l'
  end.

(** The closure returned by [register(value)]:
<<
    let idx = labelIds.value.indexOf(value)
    if (idx === -1) return
    labelIds.value.splice(idx, 1)
>> *)
Definition unregister (value : string) (labelIds : list string) : list string :=
  match indexOf value labelIds with
  | None => labelIds
  | Some idx => delete idx labelIds
  end.

(** [register(value)]: pushes [value] and returns the closure above. *)
Definition register (value : string) (labelIds : list string)
  : list string * (list string → list string) :=
  ((labelIds ++ [value])%list, unregister value).

(** The computed reference returned by [useLabels]; [None] is [undefined]. *)
Definition labelledby (labelIds : list string) : option string :=
  if decide (0 < length labelIds) then Some (join " " labelIds) else None.

(** Registering a list of ids one after the other, starting from a registry. *)
Definition register_all (values : list string) (labelIds : list string) : list string :=
  foldl (λ ids v, (register v ids).1) labelIds values.

End Label.

(** * The dialog component *)
Module Dialog.

Inductive DialogStates := Open | Closed.

#[global] Instance DialogStates_eq_dec : EqDecision DialogStates.
Proof. solve_decision. Defined.

(** The values [props.open] can hold when [setup] runs. *)
Inductive JSValue :=
| VUndefined
| VNull
| VBool (b : bool)
| VNumber (n : Z)
| VString (s : string)
| VObject.

#[global] Instance JSValue_eq_dec : EqDecision JSValue.
Proof. solve_decision. Defined.

(** [typeof v] *)
Definition typeof (v : JSValue) : string :=
  match v with
  | VUndefined => "undefined"
  | VNull => "object"
  | VBool _ => "boolean"
  | VNumber _ => "number"
  | VString _ => "string"
  | VObject => "object"
  end.

(** [v ? _ : _] *)
Definition truthy (v : JSValue) : bool :=
  match v with
  | VUndefined | VNull => false
  | VBool b => b
  | VNumber n => negb (n =? 0)%Z
  | VString s => negb (String.eqb s "")
  | VObject => true
  end.

(** A value interpolated in a template literal. *)
Definition template (v : JSValue) : string :=
  match v with
  | VUndefined => "undefined"
  | VNull => "null"
  | VBool true => "true"
  | VBool false => "false"
  | VNumber n => pretty n
  | VString s => s
  | VObject => "[object Object]"
  end.

(** [let Missing = '...'], the default of the [open] prop. *)
Definition Missing : string := "DC8F892D-2EBD-447C-A4C8-A03058436FF4".

(** [open: { type: Boolean, default: Missing }]: what [props.open] holds
    when the consumer did not bind the prop. *)
Definition defaultOpen : JSValue := VString Missing.

(** What [setup] registers with the framework, in call order. *)
Inductive Hook :=
| OnUpdated
| UseId
| UseFocusTrap
| UseInertOthers
| UseStackProvider
| UseDescriptions
| Provide
| UseWindowEvent (type : string)
| WatchEffect.

(** The state [setup] creates: the references and the validated prop. *)
Record Instance := mkInstance {
  id : string;
  containers : gset Element;
  open : bool;
  enabled : bool;
  titleId : option string;
  hooks : list Hook;
}.

(** [computed(() => (props.open ? DialogStates.Open : DialogStates.Closed))] *)
Definition dialogState (d : Instance) : DialogStates :=
  if open d then Open else Closed.

(** The two errors [setup] throws; the second one shows [undefined] for
    a value that is the default. *)
Definition forgot_open : Error :=
  mkError "You forgot to provide an `open` prop to the `Dialog`.".

Definition not_boolean (v : JSValue) : Error :=
  mkError ("You provided an `open` prop to the `Dialog`, but the value is not a boolean. Received: "
           ++ template (if decide (v = VString Missing) then VUndefined else v)).

(** [setup(props, { emit })]: [propsOpen] is [props.open] and [uid] is
    what [useId()] returns. *)
Definition setup (uid : nat) (propsOpen : JSValue) : Result Instance :=
  let hasOpen := bool_decide (propsOpen ≠ VString Missing) in
  if negb hasOpen then Throw forgot_open
  else if bool_decide (typeof propsOpen ≠ "boolean") then Throw (not_boolean propsOpen)
  else
    let state := if truthy propsOpen then Open else Closed in
    Return {|
      id := "headlessui-dialog-" ++ pretty uid;
      containers := ∅;
      open := truthy propsOpen;
      enabled := bool_decide (state = Open);
      titleId := None;
      hooks := [OnUpdated; UseId; UseFocusTrap; UseInertOthers; UseStackProvider;
                UseDescriptions; Provide; UseWindowEvent "mousedown";
                WatchEffect; WatchEffect]
    |}.

(** What a handler does besides changing the instance. *)
Inductive Effect :=
| Emit (event : string) (payload : bool)
| NextTickFocus (target : Element)
| PreventDefault
| StopPropagation.

#[global] Instance Effect_eq_dec : EqDecision Effect.
Proof. solve_decision. Defined.

(** [api.close()] *)
Definition close : Effect := Emit "close" false.

(** The messages of the stack context and the callback the dialog gives
    to [useStackProvider]. *)
Inductive StackMessage := AddElement | RemoveElement.

Definition onStackUpdate (m : StackMessage) (element : Element) (d : Instance) : Instance :=
  match m with
  | AddElement =>
      mkInstance (id d) (containers d ∪ {[element]}) (open d) (enabled d) (titleId d) (hooks d)
  | RemoveElement =>
      mkInstance (id d) (containers d ∖ {[element]}) (open d) (enabled d) (titleId d) (hooks d)
  end.

Section OutsideClick.

(** [contains(containers, element)] of [internal/dom-containers]. *)
Variable contains : gset Element → Element → bool.

(** The ['mousedown'] listener registered on the window. *)
Definition handleMouseDown (d : Instance) (target : Element) : list Effect :=
  if bool_decide (dialogState d ≠ Open) then []
  else if bool_decide (size (containers d) ≠ 1) then []
  else if contains (containers d) target then []
  else [close; NextTickFocus target].

End OutsideClick.

(** Modelled from the spec: the key-name constant [Keys.Escape] of the
    keyboard module, which is used to match the [Escape] key. *)
Definition Keys_Escape : string := "Escape".

Record KeyboardEvent := { key : string }.

(** [handleKeyDown(event)] *)
Definition handleKeyDown (d : Instance) (event : KeyboardEvent) : list Effect :=
  if bool_decide (key event ≠ Keys_Escape) then []
  else if bool_decide (dialogState d ≠ Open) then []
  else if bool_decide (1 < size (containers d)) then []
  else [PreventDefault; StopPropagation; close].

(** ** Scroll lock *)

(** The part of the page the scroll lock reads and writes: the declaration
    block of [document.documentElement.style], [window.innerWidth] and
    [document.documentElement.clientWidth]. The block holds the values of
    longhand properties, under the names the style object gives them. *)
Record Page := mkPage {
  style : gmap string string;
  innerWidth : Z;
  clientWidth : Z;
}.

(** The longhands of a shorthand property, in the order of its value; a
    longhand has none. The two shorthands are listed that share a longhand
    with a property the scroll lock assigns. *)
Definition longhands (k : string) : list string :=
  if decide (k = "overflow") then ["overflowX"; "overflowY"]
  else if decide (k = "padding")
       then ["paddingTop"; "paddingRight"; "paddingBottom"; "paddingLeft"]
  else [].

(** What the browser knows about values. [parse k v] is the value the
    block stores when the text [v] is assigned to the longhand [k], [None]
    when the text is not a value of [k]; [expand k v] gives the values of
    the longhands of the shorthand [k] for the text [v]; [serialize k vs] is
    the text of the shorthand [k] whose longhands hold [vs], empty when
    these cannot be written as one value. *)
Record Grammar := mkGrammar {
  parse : string → string → option string;
  expand : string → string → option (list string);
  serialize : string → list string → string;
}.

Section ScrollLock.

Variable css : Grammar.

(** Whether the framework drops the callback given to [onInvalidate] once
    it has called it, or keeps it until the effect gives another one. *)
Variable forgets : bool.

(** Reading a property: a longhand gives its value, the empty string when
    it is not set; a shorthand gives the text for its longhands, the empty
    string when one of them is not set. *)
Definition style_get (k : string) (p : Page) : string :=
  match longhands k with
  | [] => default "" (style p !! k)
  | ls =>
      match mapM (λ l, style p !! l) ls with
      | Some vs => serialize css k vs
      | None => ""
      end
  end.

(** Assigning to a property: the empty string removes it, with its
    longhands when it is a shorthand; a text the browser rejects leaves the
    block as it is. *)
Definition style_set (k v : string) (p : Page) : Page :=
  let declarations :=
    match longhands k with
    | [] =>
        if decide (v = "") then delete k (style p)
        else match parse css k v with
             | Some v' => <[k := v']> (style p)
             | None => style p
             end
    | ls =>
        if decide (v = "") then foldr delete (style p) ls
        else match expand css k v with
             | Some vs =>
                 if decide (length vs = length ls)
                 then foldr (λ kv m, <[kv.1 := kv.2]> m) (style p) (zip ls vs)
                 else style p
             | None => style p
             end
    end in
  mkPage declarations (innerWidth p) (clientWidth p).

(** The body of the scroll-lock effect: the page it leaves and the
    callback it hands to [onInvalidate], if it got that far. *)
Definition scrollLock (st : DialogStates) (p : Page) : Page * option (Page → Page) :=
  if bool_decide (st ≠ Open) then (p, None)
  else
    let overflow := style_get "overflow" p in
    let paddingRight := style_get "paddingRight" p in
    let scrollbarWidth := (innerWidth p - clientWidth p)%Z in
    let p := style_set "overflow" "hidden" p in
    let p := style_set "paddingRight" (pretty scrollbarWidth ++ "px") p in
    (p, Some (λ q, style_set "paddingRight" paddingRight (style_set "overflow" overflow q))).

(** A running [watchEffect] of the framework holds the callback last
    given to [onInvalidate]. *)
Record Watcher := mkWatcher { invalidate : option (Page → Page) }.

Definition run_invalidate (w : Watcher) (p : Page) : Page :=
  match invalidate w with
  | Some f => f p
  | None => p
  end.

(** The effect runs: at set-up and again whenever [dialogState] has
    changed. The pending callback is called before the body. When the body
    gives no callback, the old one stays unless the framework forgets it. *)
Definition watch_run (st : DialogStates) (w : Watcher) (p : Page) : Watcher * Page :=
  let '(p', c) := scrollLock st (run_invalidate w p) in
  (mkWatcher (match c with
              | Some f => Some f
              | None => if forgets then None else invalidate w
              end), p').

(** The component unmounts and the effect is stopped. *)
Definition watch_stop (w : Watcher) (p : Page) : Watcher * Page :=
  (mkWatcher None, run_invalidate w p).

(** The callback an effect run registers in the open state on page [p]. *)
Definition restore (p : Page) : Page → Page :=
  λ q, style_set "paddingRight" (style_get "paddingRight" p)
         (style_set "overflow" (style_get "overflow" p) q).

(** The browser takes [hidden] as a value of [overflow], for both
    longhands, and writes it back as such. *)
Definition accepts_hidden : Prop :=
  expand css "overflow" "hidden" = Some ["hidden"; "hidden"] ∧
  serialize css "overflow" ["hidden"; "hidden"] = "hidden".

(** What a declaration block guarantees of the values it holds: none is
    empty, and the text read from [paddingRight] or from [overflow] is
    taken again and gives the values it was read from. *)
Definition round_trips (p : Page) : Prop :=
  map_Forall (λ _ v, v ≠ "") (style p) ∧
  (∀ r, style p !! "paddingRight" = Some r → parse css "paddingRight" r = Some r) ∧
  (∀ x y, style p !! "overflowX" = Some x → style p !! "overflowY" = Some y →
     serialize css "overflow" [x; y] ≠ "" →
     expand css "overflow" (serialize css "overflow" [x; y]) = Some [x; y]).

End ScrollLock.

(** The longhands the scroll lock can write, and the properties whose
    reading depends on one of them. *)
Definition written : list string := ["overflowX"; "overflowY"; "paddingRight"].

Definition coupled : list string :=
  ["overflow"; "overflowX"; "overflowY"; "padding"; "paddingRight"].

(** A grammar for the examples. It knows the keywords of [overflow] and
    the lengths that are a whole number of pixels, written without a sign;
    it rejects every other text. *)
Module Css.

Definition keywords : list string := ["visible"; "hidden"; "clip"; "scroll"; "auto"].

Definition is_digit (c : Ascii.ascii) : bool :=
  bool_decide (48 ≤ Ascii.nat_of_ascii c)%nat && bool_decide (Ascii.nat_of_ascii c ≤ 57)%nat.

(** Digits, at least one, and then [px]. *)
Fixpoint pixels (seen : bool) (v : string) : bool :=
  match v with
  | EmptyString => false
  | String c v' =>
      if is_digit c then pixels true v'
      else seen && bool_decide (String c v' = "px")
  end.

Definition parse (k v : string) : option string :=
  if bool_decide (k ∈ ["overflowX"; "overflowY"]) then
    if bool_decide (v ∈ keywords) then Some v else None
  else if bool_decide (k ∈ ["paddingTop"; "paddingRight"; "paddingBottom"; "paddingLeft"]) then
    if pixels false v then Some v else None
  else None.

(** One keyword stands for both longhands of [overflow], two keywords
    stand for one each; one length stands for the four sides. *)
Definition expand (k v : string) : option (list string) :=
  if bool_decide (k = "overflow") then
    if bool_decide (v ∈ keywords) then Some [v; v]
    else (λ xy : string * string, [xy.1; xy.2]) <$>
         head (filter (λ xy : string * string, v = xy.1 ++ " " ++ xy.2)
                      (x ← keywords; y ← keywords; [(x, y)]))
  else if bool_decide (k = "padding") then
    if pixels false v then Some [v; v; v; v] else None
  else None.

(** The shortest text for the values of the longhands. *)
Definition serialize (k : string) (vs : list string) : string :=
  match vs with
  | [x; y] => if decide (x = y) then x else x ++ " " ++ y
  | [t; r; b; l] =>
      if decide (r = l) then
        if decide (t = b) then
          if decide (t = r) then t else t ++ " " ++ r
        else t ++ " " ++ r ++ " " ++ b
      else t ++ " " ++ r ++ " " ++ b ++ " " ++ l
  | _ => ""
  end.

Definition grammar : Grammar := mkGrammar parse expand serialize.

End Css.

(** ** Stacked dialogs *)

(** Modelled from the spec: an entry of the stack, that is a mounted
    dialog together with the element its portal renders. *)
Record Entry := mkEntry { element : Element; dialog : Instance }.

(** Modelled from the spec: the stack context, which is not part of the
    dialog module. Entries are ordered by mount time, the topmost one is the
    most recently mounted. A region that mounts is registered with its own
    dialog and with every dialog below it (the inner one is registered in
    the outer one's stack); [notify] delivers the message to each
    [useStackProvider] callback. *)
Definition notify (m : StackMessage) (e : Element) (stack : list Entry) : list Entry :=
  (λ en, mkEntry (element en) (onStackUpdate m e (dialog en))) <$> stack.

(** Modelled from the spec: push appends. *)
Definition push (e : Element) (d : Instance) (stack : list Entry) : list Entry :=
  notify AddElement e (stack ++ [mkEntry e d])%list.

(** Modelled from the spec: pop removes regardless of position. *)
Definition pop (e : Element) (stack : list Entry) : list Entry :=
  notify RemoveElement e (filter (λ en, element en ≠ e) stack).

(** Modelled from the spec: the topmost entry is the last one pushed. *)
Definition isTopmost (e : Element) (stack : list Entry) : Prop :=
  last (element <$> stack) = Some e.

(** Modelled from the spec: the stacks that pushes of freshly set-up
    dialogs and pops produce. *)
Inductive mounted : list Entry → Prop :=
| mounted_nil : mounted []
| mounted_push e d stack :
    mounted stack → e ∉ (element <$> stack) → containers d = ∅ →
    mounted (push e d stack)
| mounted_pop e stack :
    mounted stack → mounted (pop e stack).

(** Modelled from the spec: a key event bubbles through the dialogs on
    its path, innermost first, and an inner dialog swallows it before it
    reaches the outer ones: each [handleKeyDown] runs unless a handler
    before it stopped the propagation. The result lists the elements of the
    dialogs that asked to close. *)
Fixpoint bubble (event : KeyboardEvent) (path : list Entry) : list Element :=
  match path with
  | [] => []
  | en :: path' =>
      let effects := handleKeyDown (dialog en) event in
      ((if bool_decide (close ∈ effects) then [element en] else []) ++
       (if bool_decide (StopPropagation ∈ effects) then [] else bubble event path'))%list
  end.

(** Modelled from the spec: the key is pressed with the focus inside the
    topmost dialog. *)
Definition press (event : KeyboardEvent) (stack : list Entry) : list Element :=
  bubble event (reverse stack).

(** ** Invariants used in the proofs *)

(** Every dialog of the stack holds its own element and those of the
    dialogs above it. *)
Fixpoint stack_inv (stack : list Entry) : Prop :=
  match stack with
  | [] => True
  | en :: rest =>
      containers (dialog en) = list_to_set (element <$> en :: rest) ∧ stack_inv rest
  end.

End Dialog.

(** * The focus trap *)
Module FocusTrap.

(** Modelled from the spec: the focus-trap engine, whose module
    ([hooks/use-focus-trap]) is missing from the sources; its tests are
    present. An element as the
    focusable-element query sees it: whether it matches the standard
    interactive-element predicate (a link with a target, a button, an input,
    a select, a text area, or an element with an explicit tab index that is
    zero or positive), whether it is disabled, whether it is visually hidden
    (not displayed, or with a zero bounding box), and whether it carries the
    autofocus marker. *)
Record Node := mkNode {
  node : Element;
  interactive : bool;
  disabled : bool;
  hidden : bool;
  autofocus : bool;
}.

(** Modelled from the spec: the focusable-element predicate. *)
Definition focusable (n : Node) : bool :=
  interactive n && negb (disabled n) && negb (hidden n).

(** Modelled from the spec: every element inside the boundary. The
    containers come in registration order, the nodes of a container in
    tree order. *)
Definition elements (containers : list (list Node)) : list Element :=
  node <$> concat containers.

(** Modelled from the spec: the focusable-element set, in tree order
    across all containers. *)
Definition focusables (containers : list (list Node)) : list Element :=
  node <$> filter (λ n, focusable n = true) (concat containers).

(** Modelled from the spec: the focusable elements that carry the
    autofocus marker. *)
Definition autofocused (containers : list (list Node)) : list Element :=
  node <$> filter (λ n, focusable n = true ∧ autofocus n = true) (concat containers).

(** Modelled from the spec: the options of [activate], that is the
    optional explicit element to focus on activation. *)
Record Options := mkOptions { initialFocus : option Element }.

(** Modelled from the spec: the two states of the trap. *)
Inductive State := Inactive | Active.

(** Modelled from the spec: the focus-trap boundary, that is its
    containers, the element that had the focus when the trap was activated,
    and the last known valid element inside the boundary. *)
Record Trap := mkTrap {
  state : State;
  containers : list (list Node);
  previouslyFocusedElement : option Element;
  lastValid : option Element;
}.

(** Modelled from the spec: the part of the document the trap reads and
    writes, that is the focused element, the elements attached to the
    document, and the elements that can take the focus when asked to. No
    element is focused when the focus is on the body. *)
Record Document := mkDocument {
  activeElement : option Element;
  attached : gset Element;
  takesFocus : gset Element;
}.

(** [e.focus()]: nothing happens on an element that cannot take the
    focus. *)
Definition focus (e : Element) (doc : Document) : Document :=
  if bool_decide (e ∈ takesFocus doc)
  then mkDocument (Some e) (attached doc) (takesFocus doc)
  else doc.

(** The focused element loses the focus, which goes to the body. *)
Definition blur (doc : Document) : Document :=
  mkDocument None (attached doc) (takesFocus doc).

(** The message asserted by the focus-trap test. *)
Definition NoFocusableElementError : Error :=
  mkError "There are no focusable elements inside the <headlessui-focus-trap />".

(** Modelled from the spec: the initial focus target is the explicit
    element when one is given, else the first element of the boundary that
    carries the autofocus marker, else the first focusable element. *)
Definition initialFocusTarget (cs : list (list Node)) (o : Options) : option Element :=
  match initialFocus o with
  | Some e => Some e
  | None =>
      match autofocused cs with
      | e :: _ => Some e
      | [] => head (focusables cs)
      end
  end.

(** Modelled from the spec: [activate(containers, options)] captures the
    previously focused element, computes the initial focus target and
    focuses it; it fails when the focusable set is empty and no explicit
    target was supplied. *)
Definition activate (cs : list (list Node)) (o : Options) (doc : Document)
  : Result (Trap * Document) :=
  match initialFocusTarget cs o with
  | None => Throw NoFocusableElementError
  | Some target =>
      Return (mkTrap Active cs (activeElement doc) (Some target), focus target doc)
  end.

(** Modelled from the spec: [deactivate()] restores the focus to the
    previously focused element if that is still attached to the document;
    on an inactive trap it does nothing. *)
Definition deactivate (t : Trap) (doc : Document) : Trap * Document :=
  match state t with
  | Inactive => (t, doc)
  | Active =>
      (mkTrap Inactive (containers t) None None,
       match previouslyFocusedElement t with
       | Some e => if bool_decide (e ∈ attached doc) then focus e doc else doc
       | None => doc
       end)
  end.

(** Position of an element in a list of elements. *)
Fixpoint position (e : Element) (l : list Element) : option nat :=
  match l with
  | [] => None
  | x :: l' => if decide (x = e) then Some 0 else S <$> position e l'
  end.

(** Modelled from the spec: the element a forward tab lands on: the next
    focusable element of the boundary, wrapping to the first one when there
    is no next one or when the focus is not on a focusable element of the
    boundary. *)
Definition nextTarget (fs : list Element) (current : option Element) : option Element :=
  match current ≫= (λ c, position c fs) with
  | Some i =>
      match fs !! S i with
      | Some e => Some e
      | None => head fs
      end
  | None => head fs
  end.

(** Modelled from the spec: the symmetric wrap to the last element for a
    backward tab. *)
Definition previousTarget (fs : list Element) (current : option Element) : option Element :=
  match current ≫= (λ c, position c fs) with
  | Some (S i) => fs !! i
  | _ => last fs
  end.

(** Modelled from the spec: the trap moves the focus to an element of
    the boundary, which becomes the last valid one once it has the focus. *)
Definition moveTo (target : option Element) (t : Trap) (doc : Document) : Trap * Document :=
  match target with
  | Some e =>
      let doc' := focus e doc in
      if bool_decide (activeElement doc' = Some e)
      then (mkTrap (state t) (containers t) (previouslyFocusedElement t) (Some e), doc')
      else (t, doc')
  | None => (t, doc)
  end.

(** Modelled from the spec: the focus goes back to the last valid
    element. *)
Definition redirect (t : Trap) (doc : Document) : Document :=
  match lastValid t with
  | Some e => focus e doc
  | None => doc
  end.

(** Modelled from the spec: the re-focus guard. It runs whenever the focus
    has changed: a focused element inside the boundary becomes the last
    valid one, anything else is redirected to the last valid one. *)
Definition guard (t : Trap) (doc : Document) : Trap * Document :=
  match activeElement doc with
  | Some e =>
      if bool_decide (e ∈ elements (containers t))
      then (mkTrap (state t) (containers t) (previouslyFocusedElement t) (Some e), doc)
      else (t, redirect t doc)
  | None => (t, redirect t doc)
  end.

(** Modelled from the spec: what can happen to a page with a trap on it.
    [Focus e] is any focus change to an element that the trap did not
    start: a click, or a call of [e.focus()], on an element inside or
    outside the boundary; [Blur] takes the focus from the focused element;
    [Deactivate] is the call of [deactivate]. *)
Inductive Event :=
| Tab
| ShiftTab
| Focus (e : Element)
| Blur
| Deactivate.

(** Modelled from the spec: an active trap intercepts the tab keys and
    runs its guard after a focus change; an inactive trap does neither. *)
Definition step (s : Trap * Document) (ev : Event) : Trap * Document :=
  let '(t, doc) := s in
  match state t, ev with
  | Active, Tab => moveTo (nextTarget (focusables (containers t)) (activeElement doc)) t doc
  | Active, ShiftTab => moveTo (previousTarget (focusables (containers t)) (activeElement doc)) t doc
  | Active, Focus e =>
      if bool_decide (e ∈ takesFocus doc) then guard t (focus e doc) else (t, doc)
  | Active, Blur => guard t (blur doc)
  | Active, Deactivate => deactivate t doc
  | Inactive, Focus e => (t, focus e doc)
  | Inactive, Blur => (t, blur doc)
  | Inactive, _ => (t, doc)
  end.

(** A sequence of events, from the oldest to the newest. *)
Definition run (s : Trap * Document) (evs : list Event) : Trap * Document :=
  foldl step s evs.

(** Modelled from the spec: the invariant of an active trap, that the
    focused element lies inside one of the containers. *)
Definition focusInside (s : Trap * Document) : Prop :=
  ∃ e, activeElement s.2 = Some e ∧ e ∈ elements (containers s.1).

(** ** Invariant used in the proofs *)

(** The trap is active on [cs] and the focus is on the last valid element,
    which lies inside and can take the focus. *)
Definition trapped (cs : list (list Node)) (s : Trap * Document) : Prop :=
  state s.1 = Active ∧ containers s.1 = cs ∧
  ∃ e, activeElement s.2 = Some e ∧ lastValid s.1 = Some e ∧ e ∈ elements cs ∧
       e ∈ takesFocus s.2.

End FocusTrap.

(** * The transition engine *)
Module Transition.

(** Modelled from the spec: the transition engine, whose module
    ([transitions/transition] and its utility) is missing from the sources;
    its tests are present. A transition enters or leaves. *)
Inductive Direction := Enter | Leave.

(** Modelled from the spec: the phase of a boundary. *)
Inductive Phase := Idle | Entering | Leaving.

(** Modelled from the spec: the four lifecycle events. *)
Inductive Lifecycle := beforeEnter | afterEnter | beforeLeave | afterLeave.

#[global] Instance Direction_eq_dec : EqDecision Direction.
Proof. solve_decision. Defined.

#[global] Instance Phase_eq_dec : EqDecision Phase.
Proof. solve_decision. Defined.

#[global] Instance Lifecycle_eq_dec : EqDecision Lifecycle.
Proof. solve_decision. Defined.

(** The events, and the phase, of a direction. *)
Definition before (d : Direction) : Lifecycle :=
  match d with Enter => beforeEnter | Leave => beforeLeave end.

Definition after (d : Direction) : Lifecycle :=
  match d with Enter => afterEnter | Leave => afterLeave end.

Definition phaseOf (d : Direction) : Phase :=
  match d with Enter => Entering | Leave => Leaving end.

(** Modelled from the spec: the class sets of one direction, that is the
    base classes ([enter] or [leave]), the [from] classes and the [to]
    classes. *)
Record Classes := mkClasses {
  base : list string;
  from : list string;
  to : list string;
}.

(** Every class of a transition. *)
Definition transitionClasses (c : Classes) : list string :=
  (base c ++ from c ++ to c)%list.

(** Adding classes to and removing classes from the class list of an
    element. *)
Definition addClasses (cs : list string) (classList : gset string) : gset string :=
  classList ∪ list_to_set cs.

Definition removeClasses (cs : list string) (classList : gset string) : gset string :=
  classList ∖ list_to_set cs.

(** Modelled from the spec: what the computed style of the target reports,
    each list parsed to milliseconds. *)
Record ComputedStyle := mkComputedStyle {
  transitionDuration : list nat;
  transitionDelay : list nat;
  animationDuration : list nat;
  animationDelay : list nat;
}.

(** Modelled from the spec: an entry is real if its value is not zero. *)
Definition real (ms : nat) : bool := negb (ms =? 0)%nat.

(** Modelled from the spec: a completion signal is to be waited for unless
    the computed style reports a zero duration for both the transition and
    the animation. *)
Definition hasTransition (s : ComputedStyle) : bool :=
  existsb real (transitionDuration s) || existsb real (animationDuration s).

(** Modelled from the spec: a run waits for the next rendering
    opportunity ([Applied]) or for the completion signal ([Listening]). *)
Inductive Stage := Applied | Listening.

(** Modelled from the spec: a run of the engine, numbered by the call of
    [start] that began it. *)
Record Run := mkRun {
  number : nat;
  direction : Direction;
  classes : Classes;
  stage : Stage;
}.

(** Modelled from the spec: the state of the engine of one boundary. The
    target is the class list of the element under transition, [None] when
    the element is absent; [emitted] lists the lifecycle events from the
    oldest to the newest, each with the number of the run that emitted it;
    [completed] lists the runs whose [onComplete] was invoked. *)
Record Engine := mkEngine {
  target : option (gset string);
  current : option Run;
  started : nat;
  emitted : list (nat * Lifecycle);
  completed : list nat;
}.

(** Modelled from the spec: at most one phase is active at a time. *)
Definition phase (e : Engine) : Phase :=
  match current e with
  | None => Idle
  | Some r => phaseOf (direction r)
  end.

(** The engine of a boundary that has just mounted. *)
Definition create (target : option (gset string)) : Engine :=
  mkEngine target None 0 [] [].

(** Modelled from the spec: cancellation detaches what is pending for the
    run in flight, so that nothing fires for it any more; the element is
    left without the classes of the run. *)
Definition cancel (e : Engine) : Engine :=
  match current e with
  | None => e
  | Some r =>
      mkEngine (removeClasses (transitionClasses (classes r)) <$> target e)
               None (started e) (emitted e) (completed e)
  end.

(** Modelled from the spec: [start(direction, classes, onComplete)]
    supersedes the run in flight, emits the [before] event and applies the
    base and [from] classes at once. With an absent target it changes
    nothing and invokes [onComplete]. *)
Definition start (d : Direction) (c : Classes) (e : Engine) : Engine :=
  let e := cancel e in
  let n := S (started e) in
  match target e with
  | None => mkEngine None None n (emitted e) (completed e ++ [n])%list
  | Some classList =>
      mkEngine (Some (addClasses (base c ++ from c)%list classList))
               (Some (mkRun n d c Applied)) n
               (emitted e ++ [(n, before d)])%list (completed e)
  end.

(** Modelled from the spec: genuine completion strips every class of the
    transition, emits the [after] event, invokes [onComplete] and sets the
    phase to idle. *)
Definition finish (r : Run) (e : Engine) : Engine :=
  mkEngine (removeClasses (transitionClasses (classes r)) <$> target e)
           None (started e)
           (emitted e ++ [(number r, after (direction r))])%list
           (completed e ++ [number r])%list.

(** Modelled from the spec: the next rendering opportunity removes the
    [from] classes and adds the [to] classes, then either waits for the
    completion signal or, with nothing to wait for, completes at once. *)
Definition frame (s : ComputedStyle) (e : Engine) : Engine :=
  match current e with
  | Some (mkRun n d c Applied) =>
      let e' :=
        mkEngine (addClasses (to c) <$> (removeClasses (from c) <$> target e))
                 (Some (mkRun n d c Listening)) (started e) (emitted e) (completed e) in
      if hasTransition s then e' else finish (mkRun n d c Listening) e'
  | _ => e
  end.

(** Modelled from the spec: the completion signal of the browser is heard
    only by a run that listens. *)
Definition signal (e : Engine) : Engine :=
  match current e with
  | Some (mkRun n d c Listening) => finish (mkRun n d c Listening) e
  | _ => e
  end.

(** Modelled from the spec: what can happen to an engine: a call of
    [start], the next rendering opportunity, the completion signal of the
    browser, and the destruction of the boundary. *)
Inductive Op :=
| Start (d : Direction) (c : Classes)
| Frame (s : ComputedStyle)
| Signal
| Cancel.

(** One operation on the engine. *)
Definition step (e : Engine) (op : Op) : Engine :=
  match op with
  | Start d c => start d c e
  | Frame s => frame s e
  | Signal => signal e
  | Cancel => cancel e
  end.

(** A trace, from the oldest operation to the newest. *)
Definition run (e : Engine) (ops : list Op) : Engine := foldl step e ops.

(** The events a given run has emitted, oldest first. *)
Definition eventsOf (n : nat) (log : list (nat * Lifecycle)) : list Lifecycle :=
  snd <$> filter (λ x, x.1 = n) log.

(** ** Invariants used in the proofs *)

(** Run [n] of the engine is over: it was started and is not in flight. *)
Definition over (e : Engine) (n : nat) : Prop :=
  (n ≤ started e)%nat ∧ ∀ r, current e = Some r → number r ≠ n.

(** What the log of an engine looks like: the run in flight is the last
    one started and has emitted its [before] event only; a run that has not
    started has emitted nothing; a run that is over has emitted nothing, or
    its [before] event, or its [before] and then its [after] event. *)
Definition logged (e : Engine) : Prop :=
  (∀ r, current e = Some r →
     number r = started e ∧ eventsOf (number r) (emitted e) = [before (direction r)]) ∧
  (∀ n, started e < n → eventsOf n (emitted e) = []) ∧
  (∀ n, over e n →
     ∃ d, eventsOf n (emitted e) = [] ∨ eventsOf n (emitted e) = [before d] ∨
          eventsOf n (emitted e) = [before d; after d]).

End Transition.

(** * The nested transition coordinator *)
Module Nested.

Import Transition.

(** Modelled from the spec: the coordinator of a parent boundary, whose
    module ([transitions/transition]) is missing from the sources; its
    tests are present. The
    registry maps the identity of a child to whether it is busy;
    [pendingIdle] holds while an all-idle event waits to be processed;
    [fired] counts the calls of the deferred completion callback. *)
Record Coordinator := mkCoordinator {
  registry : gmap nat bool;
  own : Phase;
  pendingIdle : bool;
  fired : nat;
}.

(** Modelled from the spec: the parent is busy iff at least one child
    entry is busy or its own transition state is not idle. *)
Definition busy (c : Coordinator) : bool :=
  bool_decide (map_Exists (λ _ b, b = true) (registry c)) ||
  bool_decide (own c ≠ Idle).

(** Modelled from the spec: when nothing is busy any more, an all-idle
    event waits to be processed. *)
Definition check (c : Coordinator) : Coordinator :=
  if busy c then c else mkCoordinator (registry c) (own c) true (fired c).

(** Modelled from the spec: [register(childId)] adds an entry when a child
    mounts. *)
Definition register (child : nat) (c : Coordinator) : Coordinator :=
  mkCoordinator (<[child := false]> (registry c)) (own c) (pendingIdle c) (fired c).

(** Modelled from the spec: the function returned by [register] removes
    the entry when the child unmounts; the removal of the last busy child
    while the parent itself is idle triggers the deferred callback. *)
Definition unregister (child : nat) (c : Coordinator) : Coordinator :=
  match registry c !! child with
  | None => c
  | Some b =>
      let c' := mkCoordinator (delete child (registry c)) (own c) (pendingIdle c) (fired c) in
      if (b : bool) then check c' else c'
  end.

(** Modelled from the spec: [notifyBusy(childId, busy)] is idempotent; a
    child that becomes busy cancels a firing that was not processed yet. *)
Definition notifyBusy (child : nat) (b : bool) (c : Coordinator) : Coordinator :=
  match registry c !! child with
  | None => c
  | Some b' =>
      if bool_decide (b' = b) then c
      else if b then mkCoordinator (<[child := true]> (registry c)) (own c) false (fired c)
      else check (mkCoordinator (<[child := false]> (registry c)) (own c) (pendingIdle c) (fired c))
  end.

(** Modelled from the spec: the own transition of the parent changes
    phase. Becoming idle may leave the subtree idle; becoming busy cancels
    a firing that was not processed yet. *)
Definition ownPhase (p : Phase) (c : Coordinator) : Coordinator :=
  if bool_decide (own c = p) then c
  else if bool_decide (p = Idle)
       then check (mkCoordinator (registry c) p (pendingIdle c) (fired c))
       else mkCoordinator (registry c) p false (fired c).

(** Modelled from the spec: the parent boundary. Its [onAllIdle] callback
    unmounts it when it is no longer to be shown. *)
Record Boundary := mkBoundary {
  coordinator : Coordinator;
  show : bool;
  mounted : bool;
}.

(** Modelled from the spec: the pending all-idle event is processed and
    the callback fires, once. *)
Definition process (b : Boundary) : Boundary :=
  if pendingIdle (coordinator b)
  then mkBoundary
         (mkCoordinator (registry (coordinator b)) (own (coordinator b)) false
                        (S (fired (coordinator b))))
         (show b) (mounted b && show b)
  else b.

(** A change of the coordinator of a boundary. *)
Definition onCoordinator (f : Coordinator → Coordinator) (b : Boundary) : Boundary :=
  mkBoundary (f (coordinator b)) (show b) (mounted b).

(** Modelled from the spec: a child boundary, that is its identity, its
    leave classes, the duration in milliseconds its computed style reports
    for them, and its engine. *)
Record Child := mkChild {
  child : nat;
  leave : Classes;
  leaveDuration : nat;
  engine : Engine;
}.

(** What the computed style of a leaving child reports. *)
Definition leaveStyle (ch : Child) : ComputedStyle :=
  mkComputedStyle [leaveDuration ch] [] [] [].

(** Modelled from the spec: a parent with its children, [clock]
    milliseconds after the leave was asked for. *)
Record World := mkWorld {
  clock : nat;
  parent : Boundary;
  children : list Child;
}.

(** Modelled from the spec: one child takes a step of its engine and
    tells the coordinator whether it is busy. *)
Definition drive (f : Child → Engine) (ch : Child) (b : Boundary) : Boundary * Child :=
  let e := f ch in
  (onCoordinator (notifyBusy (child ch) (bool_decide (phase e ≠ Idle))) b,
   mkChild (child ch) (leave ch) (leaveDuration ch) e).

(** Every child takes that step, in order. *)
Fixpoint driveAll (f : Child → Engine) (chs : list Child) (b : Boundary)
  : Boundary * list Child :=
  match chs with
  | [] => (b, [])
  | ch :: chs' =>
      let '(b1, ch1) := drive f ch b in
      let '(b2, chs2) := driveAll f chs' b1 in
      (b2, ch1 :: chs2)
  end.

(** What a child is mounted with: its identity, its leave classes, the
    duration of its leave and the classes of its element. *)
Record Mount := mkMount {
  key : nat;
  leaveClasses : Classes;
  duration : nat;
  classList : gset string;
}.

(** A child that has just mounted: its engine is idle. *)
Definition mount (m : Mount) : Child :=
  mkChild (key m) (leaveClasses m) (duration m) (create (Some (classList m))).

(** The parent and its children as mounted and shown: every child is
    registered and idle. *)
Definition shown (chs : list Mount) : World :=
  let children := mount <$> chs in
  mkWorld 0
    (mkBoundary
       (foldr (λ ch, register (child ch)) (mkCoordinator ∅ Idle false 0) children)
       true true)
    children.

(** Modelled from the spec: the parent is told to hide, so its own
    leave and that of every child start. *)
Definition hide (w : World) : World :=
  let b := mkBoundary (ownPhase Leaving (coordinator (parent w))) false (mounted (parent w)) in
  let '(b', chs) := driveAll (λ ch, start Leave (leave ch) (engine ch)) (children w) b in
  mkWorld (clock w) (process b') chs.

(** Modelled from the spec: at the next rendering opportunity the
    parent, which has no classes of its own, is done with its own
    transition, and every child swaps its classes. *)
Definition nextFrame (w : World) : World :=
  let b := onCoordinator (ownPhase Idle) (parent w) in
  let '(b', chs) := driveAll (λ ch, frame (leaveStyle ch) (engine ch)) (children w) b in
  mkWorld (clock w) (process b') chs.

(** Modelled from the spec: a millisecond passes, and the completion
    signal reaches the children whose duration has elapsed. *)
Definition tick (w : World) : World :=
  let t := S (clock w) in
  let '(b', chs) :=
    driveAll (λ ch, if bool_decide (leaveDuration ch = t) then signal (engine ch) else engine ch)
             (children w) (parent w) in
  mkWorld t (process b') chs.

(** The world [t] milliseconds after the parent was told to hide. *)
Definition leaving (chs : list Mount) (t : nat) : World :=
  Nat.iter t tick (nextFrame (hide (shown chs))).

(** Modelled from the spec: a child is in the output while its parent is
    and it is shown or still busy leaving. *)
Definition childMounted (w : World) (ch : Child) : bool :=
  mounted (parent w) && (show (parent w) || bool_decide (phase (engine ch) ≠ Idle)).

(** ** Closed forms used in the proofs *)

(** The engine of a child once its leave has started, after the next
    frame, and after its completion. *)
Definition leaveStarted (m : Mount) : Engine :=
  start Leave (leaveClasses m) (create (Some (classList m))).

Definition leaveSwapped (m : Mount) : Engine :=
  frame (mkComputedStyle [duration m] [] [] []) (leaveStarted m).

Definition leaveDone (m : Mount) : Engine :=
  if bool_decide (duration m = 0) then leaveSwapped m else signal (leaveSwapped m).

Definition childAt (t : nat) (m : Mount) : Child :=
  mkChild (key m) (leaveClasses m) (duration m)
          (if bool_decide (t < duration m) then leaveSwapped m else leaveDone m).

(** What holds [t] milliseconds after the parent was told to hide. *)
Definition leavingAt (chs : list Mount) (t : nat) (w : World) : Prop :=
  ∃ R n mt,
    w = mkWorld t (mkBoundary (mkCoordinator R Idle false n) false mt) (childAt t <$> chs) ∧
    (∀ m, m ∈ chs → R !! key m = Some (bool_decide (t < duration m))) ∧
    (∀ k, k ∉ key <$> chs → R !! k = None) ∧
    (mt = true ↔ ∃ m, m ∈ chs ∧ t < duration m) ∧
    n = (if mt then 0 else 1)%nat.

(** The children of the nested-transition test: a fast and a slow leave. *)
Definition fast : Mount :=
  mkMount 1 (mkClasses ["leave-fast"] ["leave-from"] ["leave-to"]) 50 ∅.

Definition slow : Mount :=
  mkMount 2 (mkClasses ["leave-slow"] ["leave-from"] ["leave-to"]) 150 ∅.

End Nested.

(** * disclosure.ts *)
Module Disclosure.

Inductive DisclosureStates := Open | Closed.

#[global] Instance DisclosureStates_eq_dec : EqDecision DisclosureStates.
Proof. solve_decision. Defined.

(** [useDisclosureContext(component)]; [context] is what [inject] returns,
    [None] for [null]. *)
Definition useDisclosureContext {A : Type} (component : string) (context : option A)
  : Result A :=
  match context with
  | None =>
      Throw (mkError ("<" ++ component ++
                      " /> is missing a parent <headlessui-disclosure /> component."))
  | Some api => Return api
  end.

(** [ref(props.defaultOpen ? DisclosureStates.Open : DisclosureStates.Closed)] *)
Definition initialState (defaultOpen : bool) : DisclosureStates :=
  if defaultOpen then Open else Closed.

(** [api.toggleDisclosure()]: [match] picks the entry of the state. *)
Definition toggleDisclosure (s : DisclosureStates) : DisclosureStates :=
  match s with
  | Open => Closed
  | Closed => Open
  end.

(** The slot of the three components, the [aria-expanded] attribute of the
    button ([None] is [undefined]) and the [visible] flag of the panel. *)
Definition slotOpen (s : DisclosureStates) : bool := bool_decide (s = Open).

Definition ariaExpanded (s : DisclosureStates) : option bool :=
  if bool_decide (s = Open) then Some true else None.

Definition panelVisible (s : DisclosureStates) : bool := slotOpen s.

(** What a handler of the button does to the event. *)
Inductive Effect := PreventDefault | StopPropagation.

#[global] Instance Effect_eq_dec : EqDecision Effect.
Proof. solve_decision. Defined.

Section Button.

(** [Keys.Space] and [Keys.Enter] of the keyboard module. *)
Variables Space Enter : string.

(** [handleClick()] *)
Definition handleClick (disabled : bool) (s : DisclosureStates) : DisclosureStates :=
  if disabled then s else toggleDisclosure s.

(** [handleKeyDown(event)] *)
Definition handleKeyDown (disabled : bool) (key : string) (s : DisclosureStates)
  : DisclosureStates * list Effect :=
  if disabled then (s, [])
  else if bool_decide (key = Space) || bool_decide (key = Enter)
       then (toggleDisclosure s, [PreventDefault; StopPropagation])
       else (s, []).

(** [handleKeyUp(event)] *)
Definition handleKeyUp (key : string) (s : DisclosureStates)
  : DisclosureStates * list Effect :=
  if bool_decide (key = Space) then (s, [PreventDefault]) else (s, []).

(** The events the button listens to. *)
Inductive ButtonEvent :=
| Click
| KeyDown (key : string)
| KeyUp (key : string).

(** An event reaches the button while its [disabled] prop has the given
    value. *)
Definition dispatch (s : DisclosureStates) (ev : bool * ButtonEvent)
  : DisclosureStates * list Effect :=
  match ev.2 with
  | Click => (handleClick ev.1 s, [])
  | KeyDown key => handleKeyDown ev.1 key s
  | KeyUp key => handleKeyUp key s
  end.

(** The state after a sequence of events, from the oldest to the newest. *)
Definition run (s : DisclosureStates) (evs : list (bool * ButtonEvent)) : DisclosureStates :=
  foldl (λ s ev, (dispatch s ev).1) s evs.

(** The events that call [toggleDisclosure]. *)
Definition toggles (ev : bool * ButtonEvent) : bool :=
  negb ev.1 &&
  match ev.2 with
  | Click => true
  | KeyDown key => bool_decide (key = Space) || bool_decide (key = Enter)
  | KeyUp _ => false
  end.

End Button.

End Disclosure.

(** * The rest of the dialog module *)
Module DialogParts.

Import Dialog.

(** [useDialogContext(component)]; [context] is what [inject] returns,
    [None] for [null]. *)
Definition useDialogContext {A : Type} (component : string) (context : option A)
  : Result A :=
  match context with
  | None =>
      Throw (mkError ("<" ++ component ++
                      " /> is missing a parent <headlessui-dialog /> component."))
  | Some api => Return api
  end.

(** The parent gives the [open] prop a new value: [dialogState] follows
    at once, [enabled] does not. *)
Definition setOpen (propsOpen : bool) (d : Instance) : Instance :=
  mkInstance (id d) (containers d) propsOpen (enabled d) (titleId d) (hooks d).

(** [onUpdated(() => { enabled.value = dialogState.value === DialogStates.Open })] *)
Definition updated (d : Instance) : Instance :=
  mkInstance (id d) (containers d) (open d) (bool_decide (dialogState d = Open))
             (titleId d) (hooks d).

(** What happens to a dialog after [setup]: its [open] prop gets a new
    value, the component has updated, a title sets or clears its id, the
    stack context sends a message. *)
Inductive DialogOp :=
| SetOpen (propsOpen : bool)
| Updated
| SetTitleId (newId : option string)
| Stack (m : StackMessage) (e : Element).

(** [api.setTitleId(id)]; [None] is [null]. *)
Definition setTitleId (newId : option string) (d : Instance) : Instance :=
  if decide (titleId d = newId) then d
  else mkInstance (id d) (containers d) (open d) (enabled d) newId (hooks d).

Definition apply (d : Instance) (op : DialogOp) : Instance :=
  match op with
  | SetOpen b => setOpen b d
  | Updated => updated d
  | SetTitleId t => setTitleId t d
  | Stack m e => onStackUpdate m e d
  end.

(** The id a [DialogTitle] gets in [setup]. *)
Definition titleIdOf (uid : nat) : string := "headlessui-dialog-title-" ++ pretty uid.

(** The life of the titles of a dialog: [onMounted] sets the id of the
    title, [onUnmounted] sets [null]. *)
Inductive TitleEvent :=
| TitleMounted (uid : nat)
| TitleUnmounted (uid : nat).

Definition titleStep (d : Instance) (ev : TitleEvent) : Instance :=
  match ev with
  | TitleMounted uid => setTitleId (Some (titleIdOf uid)) d
  | TitleUnmounted _ => setTitleId None d
  end.

Definition titleRun (d : Instance) (evs : list TitleEvent) : Instance :=
  foldl titleStep d evs.

(** [handleClick(event)] of the dialog and of the overlay. *)
Definition handleClick : list Effect := [PreventDefault; StopPropagation].

Definition overlayHandleClick : list Effect := [PreventDefault; StopPropagation; close].

(** A click bubbles through the handlers on its path, innermost first,
    until one of them stops the propagation. *)
Fixpoint bubbleClick (path : list (list Effect)) : list Effect :=
  match path with
  | [] => []
  | effects :: path' =>
      (effects ++ (if bool_decide (StopPropagation ∈ effects) then [] else bubbleClick path'))%list
  end.

(** Where a click lands: on the overlay, elsewhere inside the dialog, or
    outside of it. The handlers on its path are those of the overlay and of
    the dialog. *)
Inductive ClickTarget := OnOverlay | InDialog | Outside.

Definition clickPath (t : ClickTarget) : list (list Effect) :=
  match t with
  | OnOverlay => [overlayHandleClick; handleClick]
  | InDialog => [handleClick]
  | Outside => []
  end.

(** ** The observer that closes a hidden dialog *)

(** [entry.boundingClientRect] *)
Record Rect := mkRect { x : Z; y : Z; width : Z; height : Z }.

(** The callback of the [IntersectionObserver]. *)
Fixpoint observerCallback (entries : list Rect) : list Effect :=
  match entries with
  | [] => []
  | r :: entries' =>
      ((if bool_decide (x r = 0%Z) && bool_decide (y r = 0%Z) &&
           bool_decide (width r = 0%Z) && bool_decide (height r = 0%Z)
        then [close] else []) ++ observerCallback entries')%list
  end.

(** The body of the effect: the element the new observer observes, if one
    is created; [container] is [dom(internalDialogRef)]. *)
Definition observe (st : DialogStates) (container : option Element) : option Element :=
  if bool_decide (st ≠ Open) then None
  else match container with
       | None => None
       | Some c => Some c
       end.

(** Entries are delivered to an observer that is connected; the callback
    given to [onInvalidate] disconnects it. *)
Definition deliver (observed : option Element) (entries : list Rect) : list Effect :=
  match observed with
  | Some _ => observerCallback entries
  | None => []
  end.

Definition disconnect (observed : option Element) : option Element := None.

(** ** The props handed to [render] *)

(** The values of props and attributes. *)
Inductive Attr :=
| AUndefined
| ANull
| ABool (b : bool)
| AString (s : string)
| AFunction (name : string).

#[global] Instance Attr_eq_dec : EqDecision Attr.
Proof. solve_decision. Defined.

(** [this.titleId] as a value. *)
Definition titleAttr (d : Instance) : Attr :=
  match titleId d with
  | Some t => AString t
  | None => ANull
  end.

(** [propsWeControl]: the attributes first, then the keys of the dialog. *)
Definition propsWeControl (attrs : gmap string Attr) (describedby : Attr) (d : Instance)
  : gmap string Attr :=
  <["onKeydown" := AFunction "handleKeyDown"]>
  (<["onClick" := AFunction "handleClick"]>
  (<["aria-describedby" := describedby]>
  (<["aria-labelledby" := titleAttr d]>
  (<["aria-modal" := if bool_decide (dialogState d = Open) then ABool true else AUndefined]>
  (<["role" := AString "dialog"]>
  (<["id" := AString (id d)]>
  (<["ref" := AString "el"]> attrs))))))).

(** [let { open, initialFocus, ...passThroughProps } = this.$props] *)
Definition passThroughProps (props : gmap string Attr) : gmap string Attr :=
  delete "initialFocus" (delete "open" props).

(** [{ ...passThroughProps, ...propsWeControl }]: a key of the second
    object replaces the same key of the first. *)
Definition renderProps (props attrs : gmap string Attr) (describedby : Attr) (d : Instance)
  : gmap string Attr :=
  propsWeControl attrs describedby d ∪ passThroughProps props.

(** The keys the dialog sets itself. *)
Definition controlledKeys : list string :=
  ["ref"; "id"; "role"; "aria-modal"; "aria-labelledby"; "aria-describedby";
   "onClick"; "onKeydown"].

End DialogParts.

(** * The label component *)
Module LabelComponent.

Import Label.

(** [useLabelContext()]; [context] is what [inject] returns, [None] for
    [null]. *)
Definition useLabelContext {A : Type} (context : option A) : Result A :=
  match context with
  | None =>
      Throw (mkError "You used a <headlessui-label /> component, but it is not inside a parent.")
  | Some c => Return c
  end.

(** The id a label gets in [setup]. *)
Definition labelId (uid : nat) : string := "headlessui-label-" ++ pretty uid.

(** [onMounted(() => onUnmounted(context.register(id)))]: the labels that
    mount register in order, and each one keeps the function [register]
    returned, to call it when it unmounts. *)
Definition mountAll (ids : list string) (labelIds : list string)
  : list string * list (list string → list string) :=
  foldl (λ s value,
           let r := register value s.1 in (r.1, (s.2 ++ [r.2])%list))
        (labelIds, []) ids.

(** The labels unmount: their functions are called in the given order. *)
Definition unmountAll (closures : list (list string → list string))
    (labelIds : list string) : list string :=
  foldl (λ reg unregister, unregister reg) labelIds closures.

(** A prop of the context is a value or a reference to one. *)
Inductive Prop_ :=
| Raw (v : DialogParts.Attr)
| Ref (v : DialogParts.Attr).

(** [unref(value)] *)
Definition unref (p : Prop_) : DialogParts.Attr :=
  match p with
  | Raw v => v
  | Ref v => v
  end.

(** The props [render] of the label hands on: the props of the context,
    dereferenced, and the id replace the pass-through props; a passive
    label loses [onClick]. The declared props are [as] and [passive]. *)
Definition allProps (as_ : DialogParts.Attr) (passive : bool)
    (props : gmap string Prop_) (id : string) : gmap string DialogParts.Attr :=
  let passThroughProps : gmap string DialogParts.Attr := {[ "as" := as_ ]} in
  let propsWeControl := <["id" := DialogParts.AString id]> (unref <$> props) in
  let allProps := propsWeControl ∪ passThroughProps in
  if passive then delete "onClick" allProps else allProps.

End LabelComponent.

(** * Properties *)

Open Scope list_scope.
Open Scope nat_scope.
Set Warnings "-clear-no-such-hyp".

(** ** The label registry *)
Section LabelRegistry.

Import Label.

Lemma indexOf_None v l : indexOf v l = None ↔ v ∉ l.
Proof.
  induction l as [|x l IH]; simpl.
  - split; [intros _; apply not_elem_of_nil | done].
  - case_decide as Hx.
    + subst. split; [done | intros H; exfalso; apply H; left].
    + rewrite not_elem_of_cons. destruct (indexOf v l); simpl.
      * split; [done | intros [_ H]; apply IH in H; done].
      * split; [intros _; split; [congruence | by apply IH] | done].
Qed.

Lemma indexOf_first v l1 l2 : v ∉ l1 → indexOf v (l1 ++ v :: l2) = Some (length l1).
Proof.
  induction l1 as [|x l1 IH]; simpl; intros Hn.
  - by rewrite decide_True.
  - apply not_elem_of_cons in Hn as [Hne Hn].
    rewrite decide_False by congruence. by rewrite IH.
Qed.

Lemma unregister_first v l1 l2 : v ∉ l1 → unregister v (l1 ++ v :: l2) = l1 ++ l2.
Proof.
  intros Hn. unfold unregister. rewrite indexOf_first by done.
  induction l1 as [|x l1 IH]; simpl; [done|].
  f_equal. apply IH. by apply not_elem_of_cons in Hn as [_ ?].
Qed.

Lemma unregister_absent v l : v ∉ l → unregister v l = l.
Proof. intros Hn. unfold unregister. apply indexOf_None in Hn. by rewrite Hn. Qed.

Lemma register_all_app vs l : register_all vs l = l ++ vs.
Proof.
  revert l. induction vs as [|v vs IH]; intros l; simpl.
  - by rewrite app_nil_r.
  - unfold register_all in *. simpl. rewrite IH. by rewrite <- app_assoc.
Qed.

Lemma labelledby_None l : labelledby l = None ↔ l = [].
Proof.
  unfold labelledby. destruct l as [|x l].
  - done.
  - case_decide as H; [split; discriminate | simpl in H; lia].
Qed.

(** The switch-group tests register one label and read its id back. *)
Example labelledby_one : labelledby (register "headlessui-label-1" []).1 = Some "headlessui-label-1".
Proof. reflexivity. Qed.

Example labelledby_two :
  labelledby (register_all ["headlessui-label-1"; "headlessui-label-2"] []) =
    Some "headlessui-label-1 headlessui-label-2".
Proof. reflexivity. Qed.

(** C10, as stated, fails when the same id is registered twice: the second
    call of one and the same unregister function removes the entry of the
    other registration, so it is not a no-op. *)
Lemma unregister_twice_not_noop :
  let '(ids1, unregister1) := register "a" [] in
  let '(ids2, unregister2) := register "a" ids1 in
  ids2 = ["a"; "a"] ∧
  unregister1 ids2 = ["a"] ∧
  unregister1 (unregister1 ids2) = [] ∧
  unregister1 (unregister1 ids2) ≠ unregister1 ids2.
Proof. repeat split; discriminate. Qed.

(** C10 (amended): the computed label id is undefined exactly when no
    label is registered, and otherwise is the registered ids joined by
    single spaces, in registration order; [register] appends the id and
    the function it returns removes exactly one entry, the first
    occurrence of that id, and nothing else; calling that function when
    the id no longer occurs in the registry leaves the registry unchanged,
    so a second call is a no-op whenever the id was registered once. *)
Theorem label_registry_contract (before labelIds : list string) (value : string) :
  let '(after, unregister) := register value before in
  after = before ++ [value] ∧
  (∀ values, register_all values [] = values) ∧
  (labelledby labelIds = None ↔ labelIds = []) ∧
  (labelIds ≠ [] → labelledby labelIds = Some (join " " labelIds)) ∧
  (∀ l1 l2, labelIds = l1 ++ value :: l2 → value ∉ l1 → unregister labelIds = l1 ++ l2) ∧
  (value ∉ labelIds → unregister labelIds = labelIds) ∧
  (∀ l1 l2, labelIds = l1 ++ value :: l2 → value ∉ l1 → value ∉ l2 →
     unregister (unregister labelIds) = unregister labelIds).
Proof.
  simpl. split; [done|]. split; [intros values; apply register_all_app|].
  split; [apply labelledby_None|]. split.
  { intros Hne. unfold labelledby. destruct labelIds as [|x l]; [done|].
    by rewrite decide_True by (simpl; lia). }
  split.
  { intros l1 l2 -> Hl1. by apply unregister_first. }
  split; [apply unregister_absent|].
  intros l1 l2 -> Hl1 Hl2. rewrite unregister_first by done.
  apply unregister_absent. rewrite elem_of_app. tauto.
Qed.

Lemma label_registry_contract_witness :
  labelledby ["a"; "b"] = Some "a b" ∧
  (register "a" []).2 ["a"; "b"] = ["b"] ∧
  (register "a" []).2 ((register "a" []).2 ["a"; "b"]) = (register "a" []).2 ["a"; "b"].
Proof.
  pose proof (label_registry_contract [] ["a"; "b"] "a") as H. simpl in H.
  destruct H as (_ & _ & _ & Hjoin & Hone & _ & Htwice).
  split; [apply Hjoin; discriminate|]. split.
  - apply (Hone [] ["b"]); [reflexivity | apply not_elem_of_nil].
  - apply (Htwice [] ["b"]); [reflexivity | apply not_elem_of_nil |].
    intros Hin. apply list_elem_of_singleton in Hin. discriminate.
Defined.

End LabelRegistry.

(** ** The dialog *)
Section DialogFacts.

Import Dialog.

Lemma setup_boolean uid b :
  setup uid (VBool b) =
    Return (mkInstance ("headlessui-dialog-" ++ pretty uid)%string ∅ b b None
              [OnUpdated; UseId; UseFocusTrap; UseInertOthers; UseStackProvider;
               UseDescriptions; Provide; UseWindowEvent "mousedown";
               WatchEffect; WatchEffect]).
Proof. by destruct b. Qed.

(** C8: [setup] throws when the [open] prop is not bound, so that
    [props.open] holds the default, and when [props.open] is not a boolean;
    the error is the result of [setup] itself, so nothing has been
    registered or rendered and no handler exists yet. With a boolean it
    returns the instance, whose state is open or closed as the prop says. *)
Theorem setup_open_validation (uid : nat) :
  setup uid defaultOpen = Throw forgot_open ∧
  (∀ v, typeof v ≠ "boolean" →
     setup uid v =
       Throw (if decide (v = VString Missing) then forgot_open else not_boolean v)) ∧
  (∀ b : bool, ∃ d,
     setup uid (VBool b) = Return d ∧ open d = b ∧
     dialogState d = (if b then Open else Closed) ∧ containers d = ∅).
Proof.
  split; [done|]. split.
  - intros v Hty. unfold setup.
    destruct (decide (v = VString Missing)) as [->|Hne]; [done|].
    rewrite (bool_decide_true (v ≠ _)) by done.
    by rewrite bool_decide_true by done.
  - intros b. eexists. split; [apply setup_boolean|]. by destruct b.
Qed.

Lemma setup_open_validation_witness :
  setup 1 (VString "yes") =
    Throw (mkError "You provided an `open` prop to the `Dialog`, but the value is not a boolean. Received: yes").
Proof.
  destruct (setup_open_validation 1) as (_ & Hbad & _).
  apply (Hbad (VString "yes")). discriminate.
Defined.

Lemma close_in_handleMouseDown contains d target :
  close ∈ handleMouseDown contains d target ↔
  dialogState d = Open ∧ size (containers d) = 1 ∧ contains (containers d) target = false.
Proof.
  unfold handleMouseDown.
  case_bool_decide as Ho; [rewrite elem_of_nil; tauto|].
  case_bool_decide as Hs; [rewrite elem_of_nil; tauto|].
  destruct (contains _ _).
  - rewrite elem_of_nil. split; [tauto | by intros (_ & _ & ?)].
  - split; [intros _ | intros _; left].
    split; [by destruct (dialogState d) | split; [lia | done]].
Qed.

(** C7: the outside-click handler closes the dialog if and only if the
    dialog is open, exactly one container is registered and the target of
    the event is not contained in it. With no container or with two or more
    it never closes, nor does it for a target inside a registered
    container, nor when the dialog is closed. *)
Theorem outside_click_closes_iff (contains : gset nat → nat → bool)
    (d : Instance) (target : nat) :
  (close ∈ handleMouseDown contains d target ↔
     dialogState d = Open ∧
     ∃ c, containers d = {[c]} ∧ contains {[c]} target = false) ∧
  (size (containers d) ≠ 1 → handleMouseDown contains d target = []) ∧
  (contains (containers d) target = true → handleMouseDown contains d target = []) ∧
  (dialogState d = Closed → handleMouseDown contains d target = []).
Proof.
  split; [|split; [|split]].
  - rewrite close_in_handleMouseDown. split.
    + intros (Ho & Hs & Hc). split; [done|].
      apply size_1_elem_of in Hs as [c Hc']. apply leibniz_equiv in Hc'.
      exists c. by rewrite <- Hc'.
    + intros (Ho & c & Hs & Hc). rewrite Hs. split; [done|]. split; [|done].
      apply size_singleton.
  - intros Hs. unfold handleMouseDown. case_bool_decide; [done|].
    by rewrite bool_decide_true.
  - intros Hc. unfold handleMouseDown. rewrite Hc. by repeat case_bool_decide.
  - intros Hc. unfold handleMouseDown. rewrite Hc. by rewrite bool_decide_true.
Qed.

Lemma outside_click_closes_iff_witness :
  close ∈ handleMouseDown (λ cs t, bool_decide (t ∈ cs))
            (mkInstance "headlessui-dialog-1" {[7]} true true None []) 9 ∧
  handleMouseDown (λ cs t, bool_decide (t ∈ cs))
    (mkInstance "headlessui-dialog-1" {[7; 8]} true true None []) 9 = [].
Proof.
  split.
  - apply (proj1 (outside_click_closes_iff _ _ _)). split; [reflexivity|].
    exists 7. split; [reflexivity|]. apply bool_decide_false.
    intros H. apply elem_of_singleton in H. discriminate.
  - apply (proj1 (proj2 (outside_click_closes_iff _ _ _))).
    intros H. vm_compute in H. discriminate.
Defined.

Lemma close_in_handleKeyDown d event :
  close ∈ handleKeyDown d event ↔
  key event = Keys_Escape ∧ dialogState d = Open ∧ (size (containers d) ≤ 1)%nat.
Proof.
  unfold handleKeyDown.
  case_bool_decide as Hk; [rewrite elem_of_nil; tauto|].
  case_bool_decide as Ho; [rewrite elem_of_nil; tauto|].
  case_bool_decide as Hs; [rewrite elem_of_nil; split; [tauto | lia]|].
  split; [intros _ | intros _; set_solver].
  split; [by destruct (decide (key event = Keys_Escape))|].
  split; [by destruct (dialogState d) | lia].
Qed.

Lemma handleKeyDown_closed d event :
  dialogState d = Closed → handleKeyDown d event = [].
Proof.
  intros Hc. unfold handleKeyDown. rewrite Hc.
  case_bool_decide; [done|]. by rewrite bool_decide_true.
Qed.

Lemma handleKeyDown_covered d event :
  1 < size (containers d) → handleKeyDown d event = [].
Proof.
  intros Hs. unfold handleKeyDown.
  repeat (case_bool_decide; [done|]). lia.
Qed.

Lemma handleKeyDown_escape d :
  dialogState d = Open → (size (containers d) ≤ 1)%nat →
  handleKeyDown d {| key := Keys_Escape |} = [PreventDefault; StopPropagation; close].
Proof.
  intros Ho Hs. unfold handleKeyDown.
  rewrite (bool_decide_false (key _ ≠ _)) by (intros H; by apply H).
  rewrite (bool_decide_false (dialogState d ≠ Open)) by (intros H; by apply H).
  by rewrite bool_decide_false by lia.
Qed.

Lemma notify_elements m e stack : element <$> notify m e stack = element <$> stack.
Proof. unfold notify. rewrite <- list_fmap_compose. done. Qed.

Lemma push_elements e d stack : element <$> push e d stack = (element <$> stack) ++ [e].
Proof. unfold push. rewrite notify_elements, fmap_app. done. Qed.

Lemma pop_elements e stack :
  element <$> pop e stack = filter (λ x, x ≠ e) (element <$> stack).
Proof.
  unfold pop. rewrite notify_elements.
  induction stack as [|en stack IH]; [done|].
  rewrite fmap_cons, !filter_cons.
  destruct (decide (element en ≠ e)); [rewrite fmap_cons|]; by rewrite IH.
Qed.

Lemma stack_inv_push e d stack :
  stack_inv stack → containers d = ∅ → stack_inv (push e d stack).
Proof.
  intros Hinv Hd. unfold push. induction stack as [|en stack IH]; simpl.
  - split; [|done]. rewrite Hd. set_solver.
  - destruct Hinv as [Hen Hinv]. split; [|by apply IH].
    rewrite Hen. fold (notify AddElement e (stack ++ [mkEntry e d])).
    rewrite notify_elements, fmap_app. simpl.
    rewrite list_to_set_app_L. set_solver.
Qed.

Lemma stack_inv_pop e stack : stack_inv stack → stack_inv (pop e stack).
Proof.
  intros Hinv. induction stack as [|en stack IH]; [done|].
  destruct Hinv as [Hen Hinv]. specialize (IH Hinv).
  unfold pop in *. rewrite filter_cons.
  destruct (decide (element en ≠ e)) as [Hne|Heq]; [|done].
  simpl. split; [|done].
  fold (notify RemoveElement e (filter (λ en0, element en0 ≠ e) stack)).
  rewrite notify_elements, Hen.
  apply set_eq. intros x.
  rewrite elem_of_difference, elem_of_union, !elem_of_list_to_set, elem_of_singleton.
  rewrite !list_elem_of_fmap.
  setoid_rewrite list_elem_of_filter. simpl.
  setoid_rewrite elem_of_cons. rewrite elem_of_singleton.
  split.
  - intros [(y & -> & [-> | Hy]) Hx]; [by left | right; by exists y].
  - intros [-> | (y & -> & Hy & Hin)]; (split; [|done]).
    + exists en. split; [done | by left].
    + exists y. split; [done | by right].
Qed.

Lemma mounted_inv stack :
  mounted stack → NoDup (element <$> stack) ∧ stack_inv stack.
Proof.
  induction 1 as [|e d stack _ [Hnd Hinv] Hfresh Hd|e stack _ [Hnd Hinv]].
  - split; [constructor | done].
  - split; [|by apply stack_inv_push].
    rewrite push_elements. apply NoDup_app. split; [done|].
    split; [|apply NoDup_singleton].
    intros x Hx Hx'. apply list_elem_of_singleton in Hx'. by subst.
  - split; [|by apply stack_inv_pop].
    rewrite pop_elements. by apply NoDup_filter.
Qed.

Lemma stack_inv_size l1 en l2 :
  NoDup (element <$> l1 ++ en :: l2) → stack_inv (l1 ++ en :: l2) →
  size (containers (dialog en)) = S (length l2).
Proof.
  induction l1 as [|x l1 IH].
  - intros Hnd [Hen _]. rewrite Hen, size_list_to_set by apply Hnd.
    by rewrite length_fmap.
  - intros Hnd [_ Hinv]. apply IH; [|done].
    rewrite <- app_comm_cons, fmap_cons in Hnd. by apply NoDup_cons in Hnd as [_ ?].
Qed.

Lemma topmost_last l1 en l2 :
  NoDup (element <$> l1 ++ en :: l2) →
  isTopmost (element en) (l1 ++ en :: l2) ↔ l2 = [].
Proof.
  intros Hnd. unfold isTopmost. split.
  - intros Hlast. destruct l2 as [|y l2 _] using rev_ind; [done|]. exfalso.
    rewrite fmap_app in Hlast, Hnd.
    change (en :: l2 ++ [y]) with ((en :: l2) ++ [y]) in Hlast, Hnd.
    rewrite fmap_app, app_assoc in Hlast, Hnd. simpl in Hlast.
    rewrite last_snoc in Hlast. injection Hlast as Hy.
    apply NoDup_app in Hnd as (_ & Hdisj & _).
    apply (Hdisj (element y)); [|rewrite Hy; apply list_elem_of_singleton; done].
    rewrite Hy. apply elem_of_app. right. rewrite fmap_cons. left.
  - intros ->. rewrite fmap_app. simpl.
    change ([element en]) with ([] ++ [element en]). rewrite app_assoc.
    by rewrite last_snoc.
Qed.

Lemma bubble_covered event path :
  (∀ en, en ∈ path → 1 < size (containers (dialog en))) → bubble event path = [].
Proof.
  induction path as [|en path IH]; intros Hall; [done|]. simpl.
  rewrite handleKeyDown_covered by (apply Hall; left).
  rewrite !bool_decide_false by (apply not_elem_of_nil). simpl.
  apply IH. intros en' Hin. apply Hall. by right.
Qed.

Lemma press_snoc event l top :
  NoDup (element <$> l ++ [top]) → stack_inv (l ++ [top]) →
  press event (l ++ [top]) =
    if bool_decide (close ∈ handleKeyDown (dialog top) event) then [element top] else [].
Proof.
  intros Hnd Hinv. unfold press. rewrite reverse_snoc. simpl.
  assert (bubble event (reverse l) = []) as Hlow.
  { apply bubble_covered. intros en Hin. rewrite elem_of_reverse in Hin.
    apply list_elem_of_split in Hin as (l1 & l2 & ->).
    rewrite <- app_assoc in Hnd, Hinv. simpl in Hnd, Hinv.
    rewrite (stack_inv_size _ _ _ Hnd Hinv). rewrite length_app. simpl. lia. }
  rewrite Hlow. destruct (bool_decide (StopPropagation ∈ _)); by rewrite app_nil_r.
Qed.

(** C6: an Escape key press closes a dialog only when that dialog is
    open and topmost in its stack. With nested dialogs the key press, which
    reaches the innermost dialog first, closes the topmost dialog and no
    other one: the handler of every dialog below it finds more than its own
    element registered and returns. A closed dialog never reacts. *)
Theorem escape_closes_only_topmost (stack : list Entry) (Hm : mounted stack) :
  (∀ en event, en ∈ stack → close ∈ handleKeyDown (dialog en) event →
     key event = Keys_Escape ∧ dialogState (dialog en) = Open ∧
     isTopmost (element en) stack) ∧
  (∀ en, en ∈ stack → isTopmost (element en) stack → dialogState (dialog en) = Open →
     press {| key := Keys_Escape |} stack = [element en]) ∧
  (∀ en event, en ∈ stack → ¬ isTopmost (element en) stack →
     handleKeyDown (dialog en) event = []) ∧
  (∀ e event, e ∈ press event stack → isTopmost e stack) ∧
  (∀ d event, dialogState d = Closed → handleKeyDown d event = []).
Proof.
  destruct (mounted_inv _ Hm) as [Hnd Hinv].
  assert (∀ en, en ∈ stack → isTopmost (element en) stack ↔
                              size (containers (dialog en)) ≤ 1) as Htop.
  { intros en Hin. apply list_elem_of_split in Hin as (l1 & l2 & ->).
    rewrite topmost_last by done. rewrite (stack_inv_size _ _ _ Hnd Hinv).
    destruct l2; simpl; split; (done || lia). }
  split; [|split; [|split; [|split]]].
  - intros en event Hin Hclose.
    apply close_in_handleKeyDown in Hclose as (Hk & Ho & Hs).
    split; [done|]. split; [done|]. by apply Htop.
  - intros en Hin Hlast Ho.
    pose proof (proj1 (Htop en Hin) Hlast) as Hs.
    apply list_elem_of_split in Hin as (l1 & l2 & ->).
    apply topmost_last in Hlast as ->; [|done].
    rewrite press_snoc by done.
    by rewrite handleKeyDown_escape, bool_decide_true by (done || set_solver).
  - intros en event Hin Hnot. apply handleKeyDown_covered.
    destruct (decide (1 < size (containers (dialog en)))) as [?|Hs]; [done|].
    exfalso. apply Hnot, Htop; [done | lia].
  - intros e event Hin.
    destruct stack as [|top l _] using rev_ind; [by apply elem_of_nil in Hin|].
    rewrite press_snoc in Hin by done. case_bool_decide; [|by apply elem_of_nil in Hin].
    apply list_elem_of_singleton in Hin as ->.
    unfold isTopmost. rewrite fmap_app. apply last_snoc.
  - intros d event. apply handleKeyDown_closed.
Qed.

Lemma escape_closes_only_topmost_witness :
  let outer := mkInstance "headlessui-dialog-1" ∅ true true None [] in
  let inner := mkInstance "headlessui-dialog-2" ∅ true true None [] in
  press {| key := "Escape" |} (push 20 inner (push 10 outer [])) = [20].
Proof.
  intros outer inner.
  assert (mounted (push 20 inner (push 10 outer []))) as Hm.
  { apply mounted_push; [apply mounted_push | | reflexivity].
    - apply mounted_nil.
    - apply not_elem_of_nil.
    - reflexivity.
    - intros H. apply list_elem_of_singleton in H. discriminate. }
  destruct (escape_closes_only_topmost _ Hm) as (_ & Htop & _).
  apply (Htop (mkEntry 20 (onStackUpdate AddElement 20 inner))).
  - apply list_elem_of_further, list_elem_of_here.
  - reflexivity.
  - reflexivity.
Defined.

End DialogFacts.

(** ** The scroll lock *)
Section ScrollLockFacts.

Import Dialog.

Variable css : Grammar.
Variable forgets : bool.

Lemma longhands_other k : k ≠ "overflow" → k ≠ "padding" → longhands k = [].
Proof. intros H1 H2. unfold longhands. by rewrite !decide_False by done. Qed.

Lemma longhands_written k : k ∈ written → longhands k = [].
Proof.
  unfold written. intros Hk.
  repeat (apply elem_of_cons in Hk as [->|Hk]; [reflexivity|]).
  by apply elem_of_nil in Hk.
Qed.

Lemma not_written k :
  k ∉ written ↔ k ≠ "overflowX" ∧ k ≠ "overflowY" ∧ k ≠ "paddingRight".
Proof.
  unfold written. rewrite !not_elem_of_cons. split.
  - by intros (? & ? & ? & _).
  - intros (? & ? & ?). repeat split; try done. apply not_elem_of_nil.
Qed.

Lemma not_coupled k :
  k ∉ coupled ↔
  k ≠ "overflow" ∧ k ≠ "overflowX" ∧ k ≠ "overflowY" ∧ k ≠ "padding" ∧ k ≠ "paddingRight".
Proof.
  unfold coupled. rewrite !not_elem_of_cons. split.
  - by intros (? & ? & ? & ? & ? & _).
  - intros (? & ? & ? & ? & ?). repeat split; try done. apply not_elem_of_nil.
Qed.

Lemma style_get_longhand k p :
  longhands k = [] → style_get css k p = default "" (style p !! k).
Proof. intros Hk. unfold style_get. by rewrite Hk. Qed.

Lemma style_get_overflow p :
  style_get css "overflow" p =
    match style p !! "overflowX", style p !! "overflowY" with
    | Some x, Some y => serialize css "overflow" [x; y]
    | _, _ => ""
    end.
Proof.
  unfold style_get. change (longhands "overflow") with ["overflowX"; "overflowY"].
  cbn. by destruct (style p !! "overflowX"), (style p !! "overflowY").
Qed.

(** A reading depends on the property itself and on its longhands only. *)
Lemma style_get_ext k p p' :
  (∀ l, l ∈ k :: longhands k → style p !! l = style p' !! l) →
  style_get css k p = style_get css k p'.
Proof.
  intros Heq. unfold style_get.
  assert (mapM (λ l, style p !! l) (longhands k) =
          mapM (λ l, style p' !! l) (longhands k)) as Hm.
  { assert (∀ l, l ∈ longhands k → style p !! l = style p' !! l) as Hl
      by (intros l Hin; apply Heq; by apply list_elem_of_further).
    clear Heq. induction (longhands k) as [|l ls IH]; [done|].
    cbn. rewrite (Hl l) by apply list_elem_of_here. rewrite IH; [done|].
    intros l' Hin. apply Hl. by apply list_elem_of_further. }
  destruct (longhands k) as [|l ls] eqn:Hk.
  - rewrite (Heq k); [done | apply list_elem_of_here].
  - by rewrite Hm.
Qed.

Lemma style_set_overflow v p :
  style (style_set css "overflow" v p) =
    if decide (v = "") then delete "overflowX" (delete "overflowY" (style p))
    else match expand css "overflow" v with
         | Some [x; y] => <["overflowX" := x]> (<["overflowY" := y]> (style p))
         | _ => style p
         end.
Proof.
  unfold style_set. change (longhands "overflow") with ["overflowX"; "overflowY"].
  cbn [style]. case_decide; [done|].
  by destruct (expand css "overflow" v) as [[|x [|y [|z vs]]]|].
Qed.

Lemma style_set_paddingRight v p :
  style (style_set css "paddingRight" v p) =
    if decide (v = "") then delete "paddingRight" (style p)
    else match parse css "paddingRight" v with
         | Some v' => <["paddingRight" := v']> (style p)
         | None => style p
         end.
Proof. reflexivity. Qed.

(** The two assignments of the scroll lock write nothing but the three
    longhands. *)
Lemma style_set_overflow_frame v p k :
  k ∉ written → style (style_set css "overflow" v p) !! k = style p !! k.
Proof.
  intros Hk. rewrite style_set_overflow.
  apply not_written in Hk as (Hx & Hy & _).
  case_decide.
  - by rewrite !lookup_delete_ne by done.
  - destruct (expand css "overflow" v) as [[|x [|y [|z vs]]]|]; try done.
    by rewrite !lookup_insert_ne by done.
Qed.

Lemma style_set_paddingRight_frame v p k :
  k ≠ "paddingRight" → style (style_set css "paddingRight" v p) !! k = style p !! k.
Proof.
  intros Hk. rewrite style_set_paddingRight. case_decide.
  - by rewrite lookup_delete_ne by done.
  - destruct (parse css "paddingRight" v); [|done]. by rewrite lookup_insert_ne by done.
Qed.

Lemma restore_frame p q k : k ∉ written → style (restore css p q) !! k = style q !! k.
Proof.
  intros Hk. unfold restore.
  rewrite style_set_paddingRight_frame by (by apply not_written in Hk as (_ & _ & ?)).
  by apply style_set_overflow_frame.
Qed.

Lemma coupled_frame k p p' :
  k ∉ coupled → (∀ l, l ∉ written → style p !! l = style p' !! l) →
  style_get css k p = style_get css k p'.
Proof.
  intros Hk Heq. apply style_get_ext.
  apply not_coupled in Hk as (Ho & Hx & Hy & Hp & Hr).
  rewrite longhands_other by done.
  intros l Hl. apply list_elem_of_singleton in Hl as ->. apply Heq.
  by apply not_written.
Qed.

Lemma px_not_empty (w : Z) : (pretty w ++ "px")%string ≠ "".
Proof.
  by destruct (pretty w).
Qed.

Lemma scrollLock_open p :
  scrollLock css Open p =
    (style_set css "paddingRight" (pretty (innerWidth p - clientWidth p)%Z ++ "px")%string
       (style_set css "overflow" "hidden" p),
     Some (restore css p)).
Proof. reflexivity. Qed.

Lemma watch_run_open p :
  watch_run css forgets Open (mkWatcher None) p =
    (mkWatcher (Some (restore css p)),
     style_set css "paddingRight" (pretty (innerWidth p - clientWidth p)%Z ++ "px")%string
       (style_set css "overflow" "hidden" p)).
Proof. reflexivity. Qed.

(** The declarations of a locked page. *)
Lemma locked_style p :
  accepts_hidden css →
  style (watch_run css forgets Open (mkWatcher None) p).2 =
    let hidden := <["overflowX" := "hidden"]> (<["overflowY" := "hidden"]> (style p)) in
    match parse css "paddingRight" (pretty (innerWidth p - clientWidth p)%Z ++ "px")%string with
    | Some v => <["paddingRight" := v]> hidden
    | None => hidden
    end.
Proof.
  intros [Hexp _]. rewrite watch_run_open. cbn [snd].
  rewrite style_set_paddingRight, decide_False by apply px_not_empty.
  rewrite style_set_overflow, decide_False by done. by rewrite Hexp.
Qed.

(** What the callback leaves of the three longhands. *)
Lemma restore_overflow p q :
  round_trips css p →
  style_get css "overflow" (restore css p q) = style_get css "overflow" p ∧
  (style_get css "overflow" p ≠ "" →
     style (restore css p q) !! "overflowX" = style p !! "overflowX" ∧
     style (restore css p q) !! "overflowY" = style p !! "overflowY") ∧
  (style_get css "overflow" p = "" →
     style (restore css p q) !! "overflowX" = None ∧
     style (restore css p q) !! "overflowY" = None).
Proof.
  intros (_ & _ & Hrt).
  assert (∀ k, k ≠ "paddingRight" →
               style (restore css p q) !! k =
               style (style_set css "overflow" (style_get css "overflow" p) q) !! k) as Hpr.
  { intros k Hk. unfold restore. by apply style_set_paddingRight_frame. }
  rewrite (style_get_overflow (restore css p q)), !Hpr by done.
  rewrite style_set_overflow.
  destruct (decide (style_get css "overflow" p = "")) as [Ho|Ho].
  - rewrite Ho. rewrite !lookup_delete_eq, lookup_delete_ne, lookup_delete_eq by done.
    by repeat split.
  - rewrite (style_get_overflow p) in Ho |- *.
    destruct (style p !! "overflowX") as [x|] eqn:Hx; [|done].
    destruct (style p !! "overflowY") as [y|] eqn:Hy; [|done].
    rewrite (Hrt x y) by done.
    rewrite !lookup_insert_eq, lookup_insert_ne, lookup_insert_eq by done.
    by repeat split.
Qed.

Lemma restore_paddingRight p q :
  round_trips css p →
  style (restore css p q) !! "paddingRight" = style p !! "paddingRight".
Proof.
  intros (Hne & Hpr & _). unfold restore. rewrite style_set_paddingRight.
  rewrite (style_get_longhand "paddingRight" p) by done.
  destruct (style p !! "paddingRight") as [r|] eqn:Hr;
    cbn [default from_option Datatypes.id].
  - rewrite decide_False by (by apply (Hne "paddingRight")).
    rewrite (Hpr r eq_refl). by rewrite lookup_insert_eq.
  - rewrite decide_True by done. by rewrite lookup_delete_eq.
Qed.

(** Called again, the callback changes nothing more. *)
Lemma restore_idempotent p q :
  style (restore css p (restore css p q)) = style (restore css p q).
Proof.
  apply map_eq. intros k. unfold restore.
  generalize (style_get css "overflow" p) (style_get css "paddingRight" p). intros o r.
  repeat (progress rewrite ?style_set_paddingRight, ?style_set_overflow).
  generalize (expand css "overflow" o) (parse css "paddingRight" r). intros e pv.
  destruct (decide (o = "")), (decide (r = ""));
    destruct e as [[|x [|y [|z vs]]]|], pv as [v|]; try done;
    destruct (decide (k = "paddingRight")) as [Hp|Hp];
    destruct (decide (k = "overflowX")) as [Hx|Hx];
    destruct (decide (k = "overflowY")) as [Hy|Hy];
    try congruence; subst;
    repeat first [rewrite lookup_insert_eq | rewrite lookup_delete_eq
                 | rewrite lookup_insert_ne by done | rewrite lookup_delete_ne by done];
    done.
Qed.



End ScrollLockFacts.



(** ** The focus trap *)
Section FocusTrapFacts.

Import FocusTrap.

Lemma focusables_elements cs e : e ∈ focusables cs → e ∈ elements cs.
Proof.
  unfold focusables, elements. rewrite !list_elem_of_fmap.
  intros (n & -> & Hn). apply list_elem_of_filter in Hn as [_ Hn]. by exists n.
Qed.

Lemma autofocused_focusables cs e : e ∈ autofocused cs → e ∈ focusables cs.
Proof.
  unfold focusables, autofocused. rewrite !list_elem_of_fmap.
  intros (n & -> & Hn). apply list_elem_of_filter in Hn as [[Hf _] Hn].
  exists n. split; [done|]. by apply list_elem_of_filter.
Qed.

Lemma initialFocusTarget_None cs o :
  initialFocusTarget cs o = None ↔ focusables cs = [] ∧ initialFocus o = None.
Proof.
  unfold initialFocusTarget. destruct (initialFocus o) as [e|].
  - split; [done | by intros [_ ?]].
  - destruct (autofocused cs) as [|e l] eqn:Ha.
    + destruct (focusables cs); simpl; split; try done. by intros [? _].
    + split; [done|]. intros [Hf _]. exfalso.
      assert (e ∈ focusables cs) as He.
      { apply autofocused_focusables. rewrite Ha. left. }
      rewrite Hf in He. by apply elem_of_nil in He.
Qed.

Lemma nextTarget_in fs cur e : nextTarget fs cur = Some e → e ∈ fs.
Proof.
  unfold nextTarget. intros H.
  assert (head fs = Some e → e ∈ fs) as Hhead.
  { destruct fs; [done|]. intros [= ->]. left. }
  destruct (cur ≫= _) as [i|]; [|by apply Hhead].
  destruct (fs !! S i) eqn:Hi; [|by apply Hhead].
  injection H as ->. by eapply list_elem_of_lookup_2.
Qed.

Lemma previousTarget_in fs cur e : previousTarget fs cur = Some e → e ∈ fs.
Proof.
  unfold previousTarget. intros H.
  assert (last fs = Some e → e ∈ fs) as Hlast.
  { intros Hl. apply last_Some in Hl as [l' ->]. apply elem_of_app. right. left. }
  destruct (cur ≫= _) as [[|i]|]; [by apply Hlast | | by apply Hlast].
  by eapply list_elem_of_lookup_2.
Qed.

Lemma focus_takes e doc :
  e ∈ takesFocus doc → focus e doc = mkDocument (Some e) (attached doc) (takesFocus doc).
Proof. intros He. unfold focus. by rewrite bool_decide_true. Qed.

Lemma focus_refused e doc : e ∉ takesFocus doc → focus e doc = doc.
Proof. intros He. unfold focus. by rewrite bool_decide_false. Qed.

Lemma takesFocus_focus e doc : takesFocus (focus e doc) = takesFocus doc.
Proof. unfold focus. by case_bool_decide. Qed.

Lemma inactive_step s ev : state s.1 = Inactive → state (step s ev).1 = Inactive.
Proof. destruct s as [t doc]. cbn. intros Hs. unfold step. rewrite Hs. by destruct ev. Qed.

Lemma trapped_moveTo cs t doc target :
  trapped cs (t, doc) → (∀ e, target = Some e → e ∈ elements cs) →
  trapped cs (moveTo target t doc).
Proof.
  intros (Hs & Hc & e0 & Ha & Hl & He0 & Hf0) Htarget. unfold moveTo.
  cbn [fst snd] in *. destruct target as [e|].
  - destruct (decide (e ∈ takesFocus doc)) as [Hf|Hf].
    + rewrite focus_takes by done. cbn [activeElement]. rewrite bool_decide_true by done.
      split; [done|]. split; [done|]. exists e. cbn. repeat split; try done. by apply Htarget.
    + rewrite focus_refused by done. case_bool_decide as Hsame.
      * rewrite Ha in Hsame. injection Hsame as <-. done.
      * split; [done|]. split; [done|]. by exists e0.
  - split; [done|]. split; [done|]. by exists e0.
Qed.

Lemma trapped_redirect cs t doc :
  state t = Active → containers t = cs →
  (∃ e, lastValid t = Some e ∧ e ∈ elements cs ∧ e ∈ takesFocus doc) →
  trapped cs (t, redirect t doc).
Proof.
  intros Hs Hc (e & Hl & He & Hf). unfold redirect. rewrite Hl, focus_takes by done.
  split; [done|]. split; [done|]. by exists e.
Qed.

Lemma trapped_guard cs t doc e0 :
  state t = Active → containers t = cs →
  lastValid t = Some e0 → e0 ∈ elements cs → e0 ∈ takesFocus doc →
  (∀ e, activeElement doc = Some e → e ∈ takesFocus doc) →
  trapped cs (guard t doc).
Proof.
  intros Hs Hc Hl He0 Hf0 Hact. unfold guard.
  destruct (activeElement doc) as [e|] eqn:Ha.
  - rewrite Hc. case_bool_decide as He.
    + split; [done|]. split; [done|]. exists e. cbn. repeat split; try done. by apply Hact.
    + apply trapped_redirect; try done. by exists e0.
  - apply trapped_redirect; try done. by exists e0.
Qed.

(** An active trap stays trapped until it is deactivated. *)
Lemma trapped_step cs s ev :
  trapped cs s → state (step s ev).1 = Active → trapped cs (step s ev).
Proof.
  destruct s as [t doc]. intros Htr.
  pose proof Htr as (Hs & Hc & e0 & Ha & Hl & He0 & Hf0).
  cbn [fst snd] in Hs, Hc, Ha, Hl, Hf0. unfold step. rewrite Hs.
  destruct ev as [| |e| |]; intros Hact.
  - apply trapped_moveTo; [done|]. intros e He. rewrite Hc in He.
    by apply nextTarget_in, focusables_elements in He.
  - apply trapped_moveTo; [done|]. intros e He. rewrite Hc in He.
    by apply previousTarget_in, focusables_elements in He.
  - case_bool_decide as Hf; [|done].
    apply (trapped_guard cs t _ e0); try done.
    + by rewrite takesFocus_focus.
    + rewrite focus_takes by done. cbn. by intros e' [= <-].
  - apply (trapped_guard cs t _ e0); try done.
  - unfold deactivate in Hact. by rewrite Hs in Hact.
Qed.

Lemma trapped_run cs s evs :
  trapped cs s → state (run s evs).1 = Active → trapped cs (run s evs).
Proof.
  induction evs as [|ev evs IH] using rev_ind; [done|].
  unfold run in *. rewrite foldl_app. cbn [foldl]. intros Hs Hact.
  destruct (state (foldl step s evs).1) eqn:Hst.
  - by rewrite (inactive_step _ ev Hst) in Hact.
  - apply trapped_step; [|done]. by apply IH.
Qed.

Lemma trapped_activate cs o doc t doc1 :
  activate cs o doc = Return (t, doc1) →
  (∀ e, e ∈ focusables cs → e ∈ takesFocus doc) →
  (∀ e, initialFocus o = Some e → e ∈ elements cs ∧ e ∈ takesFocus doc) →
  trapped cs (t, doc1).
Proof.
  unfold activate. intros Ha Hlink Hex.
  destruct (initialFocusTarget cs o) as [e|] eqn:He; [|done].
  injection Ha as <- <-.
  assert (e ∈ elements cs ∧ e ∈ takesFocus doc) as [Hin Hf].
  { unfold initialFocusTarget in He. destruct (initialFocus o) as [x|] eqn:Hx.
    - injection He as <-. by apply Hex.
    - assert (e ∈ focusables cs) as Hfs.
      { destruct (autofocused cs) as [|a l] eqn:Hauto.
        - destruct (focusables cs); [done|]. cbn in He. injection He as ->. left.
        - injection He as <-. apply autofocused_focusables. rewrite Hauto. left. }
      split; [by apply focusables_elements | by apply Hlink]. }
  rewrite focus_takes by done.
  split; [done|]. split; [done|]. by exists e.
Qed.

(** The scenarios of the focus-trap tests. An input outside the trap is
    [0]; the elements inside are numbered from [1] in tree order. *)
Example test_first_focusable :
  activate [[mkNode 1 true false false false]] (mkOptions None) (mkDocument None {[1]} {[1]}) =
    Return (mkTrap Active [[mkNode 1 true false false false]] None (Some 1),
            mkDocument (Some 1) {[1]} {[1]}).
Proof. reflexivity. Qed.

Example test_initial_focus_wins :
  let inputs := [[mkNode 1 true false false false; mkNode 2 true false false true;
                  mkNode 3 true false false false]] in
  initialFocusTarget inputs (mkOptions (Some 3)) = Some 3 ∧
  initialFocusTarget inputs (mkOptions None) = Some 2.
Proof. split; reflexivity. Qed.

Example test_no_focusable_element :
  activate [[mkNode 1 false false false false]] (mkOptions None) (mkDocument None {[1]} ∅) =
    Throw (mkError "There are no focusable elements inside the <headlessui-focus-trap />").
Proof. reflexivity. Qed.

Example test_tab_cycle :
  let buttons := [[mkNode 1 true false false false; mkNode 2 true false false false;
                   mkNode 3 true false false false]] in
  let all := list_to_set [1; 2; 3] in
  let s := (mkTrap Active buttons None (Some 1), mkDocument (Some 1) all all) in
  activeElement (run s [Tab]).2 = Some 2 ∧
  activeElement (run s [Tab; Tab]).2 = Some 3 ∧
  activeElement (run s [Tab; Tab; Tab]).2 = Some 1 ∧
  activeElement (run s [ShiftTab]).2 = Some 3 ∧
  activeElement (run s [ShiftTab; ShiftTab]).2 = Some 2 ∧
  activeElement (run s [ShiftTab; ShiftTab; ShiftTab]).2 = Some 1.
Proof. repeat split; reflexivity. Qed.

Example test_skip_hidden_and_disabled :
  let hidden := [[mkNode 1 true false true false; mkNode 2 true false true false;
                  mkNode 3 true false false false; mkNode 4 true false false false]] in
  let disabled := [[mkNode 1 true false false false; mkNode 2 true false false false;
                    mkNode 3 true true false false; mkNode 4 true false false false]] in
  initialFocusTarget hidden (mkOptions None) = Some 3 ∧
  activeElement (run (mkTrap Active disabled None (Some 1),
                      mkDocument (Some 1) (list_to_set [1; 2; 3; 4]) (list_to_set [1; 2; 4]))
                     [Tab; Tab]).2 = Some 4.
Proof. split; reflexivity. Qed.

Example test_programmatic_escape :
  let inputs := [[mkNode 1 true false false false; mkNode 2 true false false false;
                  mkNode 3 true false false false]] in
  let all := list_to_set [0; 1; 2; 3] in
  let s := (mkTrap Active inputs (Some 0) (Some 1), mkDocument (Some 1) all all) in
  activeElement (run s [Tab; Focus 0]).2 = Some 2 ∧
  activeElement (run s [Tab; Focus 0; Focus 1; Focus 0]).2 = Some 1 ∧
  activeElement (run s [Tab; Focus 0; Focus 1; Focus 0; Focus 3; Focus 0]).2 = Some 3.
Proof. repeat split; reflexivity. Qed.

Example test_restore_on_deactivate :
  let button := [[mkNode 3 true false false false]] in
  let all := list_to_set [1; 2; 3] in
  ∃ t doc,
    activate button (mkOptions None) (mkDocument (Some 2) all all) = Return (t, doc) ∧
    activeElement doc = Some 3 ∧
    activeElement (run (t, doc) [Deactivate]).2 = Some 2 ∧
    run (t, doc) [Deactivate; Deactivate] = run (t, doc) [Deactivate].
Proof. eexists _, _. repeat split; reflexivity. Qed.




(** C5: activation throws the no-focusable-element error exactly when
    the focusable set of the boundary is empty and no explicit
    initial-focus target is given; the error is the result of [activate]
    itself. In every other case activation succeeds, asks the initial
    target to take the focus, which it then has if it can take it, and
    remembers the element that had the focus. *)
Theorem activate_fails_iff_nothing_to_focus (cs : list (list Node)) (o : Options)
    (doc : Document) :
  (activate cs o doc = Throw NoFocusableElementError ↔
     focusables cs = [] ∧ initialFocus o = None) ∧
  (focusables cs ≠ [] ∨ is_Some (initialFocus o) →
     ∃ t doc' target,
       activate cs o doc = Return (t, doc') ∧ state t = Active ∧
       initialFocusTarget cs o = Some target ∧ doc' = focus target doc ∧
       (target ∈ takesFocus doc → activeElement doc' = initialFocusTarget cs o) ∧
       previouslyFocusedElement t = activeElement doc).
Proof.
  unfold activate. split.
  - rewrite <- initialFocusTarget_None.
    destruct (initialFocusTarget cs o); [split; discriminate | done].
  - intros Hsome. destruct (initialFocusTarget cs o) as [e|] eqn:He.
    + eexists _, _, e. repeat split. intros Hf. by rewrite focus_takes.
    + apply initialFocusTarget_None in He as [Hf Hi]. destruct Hsome as [?|[x Hx]]; [done|].
      congruence.
Qed.

Lemma activate_fails_iff_nothing_to_focus_witness :
  activate [[mkNode 1 false false false false]] (mkOptions None) (mkDocument None {[1]} ∅) =
    Throw NoFocusableElementError.
Proof.
  apply (proj1 (activate_fails_iff_nothing_to_focus _ _ _)). split; reflexivity.
Defined.

End FocusTrapFacts.

(** ** The transition engine *)
Section TransitionFacts.

Import Transition.

Lemma elem_of_addClasses x cs (cl : gset string) :
  x ∈ addClasses cs cl ↔ x ∈ cl ∨ x ∈ cs.
Proof. unfold addClasses. rewrite elem_of_union, elem_of_list_to_set. done. Qed.

Lemma elem_of_removeClasses x cs (cl : gset string) :
  x ∈ removeClasses cs cl ↔ x ∈ cl ∧ x ∉ cs.
Proof. unfold removeClasses. rewrite elem_of_difference, elem_of_list_to_set. done. Qed.

Lemma elem_of_transitionClasses x c :
  x ∈ transitionClasses c ↔ x ∈ base c ∨ x ∈ from c ∨ x ∈ to c.
Proof. unfold transitionClasses. rewrite !elem_of_app. done. Qed.

(** The timeline of the test of a full enter transition: the classes of
    the element after the start, after the next frame and after the
    completion signal. *)
Example test_transition_in_completely :
  let classes := mkClasses ["enter"] ["from"] ["to"] in
  let style := mkComputedStyle [50] [] [] [] in
  let e1 := start Enter classes (create (Some ∅)) in
  let e2 := frame style e1 in
  let e3 := signal e2 in
  elements <$> target e1 = Some ["enter"; "from"] ∧
  elements <$> target e2 = Some ["enter"; "to"] ∧
  elements <$> target e3 = Some [] ∧
  emitted e3 = [(1, beforeEnter); (1, afterEnter)].
Proof. vm_compute. done. Qed.

(** The events test: a full enter run followed by a full leave run. *)
Example test_events_in_order :
  let enter := mkClasses ["enter"] ["enter-from"] ["enter-to"] in
  let leave := mkClasses ["leave"] ["leave-from"] ["leave-to"] in
  snd <$> emitted (run (create (Some ∅))
                     [Start Enter enter; Frame (mkComputedStyle [50] [] [] []); Signal;
                      Start Leave leave; Frame (mkComputedStyle [75] [] [] []); Signal]) =
    [beforeEnter; afterEnter; beforeLeave; afterLeave].
Proof. reflexivity. Qed.

(** C1: in a run on a present target, whatever the engine was doing
    before, the start adds the base and [from] classes at once; the next
    frame removes the [from] classes and adds the [to] classes; the
    completion strips every class of the transition, so that what remains
    is what the element had besides them, and the engine is idle. The order
    is strict: a completion signal that comes before the frame is not
    heard, and after the completion neither a frame nor a signal changes
    anything. Without a duration to wait for, the frame itself completes
    the run. *)
Theorem class_mutations_ordered (e : Engine) (cl : gset string) (d : Direction)
    (c : Classes) (s : ComputedStyle) :
  target (cancel e) = Some cl →
  let e1 := start d c e in
  let e2 := frame s e1 in
  let e3 := if hasTransition s then signal e2 else e2 in
  ∃ cl1 cl3,
    target e1 = Some cl1 ∧ target e3 = Some cl3 ∧
    (∀ x, x ∈ cl1 ↔ x ∈ cl ∨ x ∈ base c ∨ x ∈ from c) ∧
    (∀ x, x ∈ cl3 ↔ x ∈ cl ∧ x ∉ transitionClasses c) ∧
    phase e1 = phaseOf d ∧ phase e3 = Idle ∧
    signal e1 = e1 ∧ frame s e3 = e3 ∧ signal e3 = e3 ∧
    (hasTransition s = true →
       ∃ cl2, target e2 = Some cl2 ∧
              (∀ x, x ∈ cl2 ↔ (x ∈ cl1 ∧ x ∉ from c) ∨ x ∈ to c) ∧
              phase e2 = phaseOf d ∧ frame s e2 = e2).
Proof.
  intros Ht e1 e2 e3.
  set (n := started (cancel e)). set (log := emitted (cancel e)).
  set (done := completed (cancel e)).
  set (cl1 := addClasses (base c ++ from c) cl).
  set (cl2 := addClasses (to c) (removeClasses (from c) cl1)).
  set (cl3 := removeClasses (transitionClasses c) cl2).
  assert (e1 = mkEngine (Some cl1) (Some (mkRun (S n) d c Applied)) (S n)
                        (log ++ [(S n, before d)]) done) as He1.
  { unfold e1, start. by rewrite Ht. }
  assert (e3 = mkEngine (Some cl3) None (S n)
                        ((log ++ [(S n, before d)]) ++ [(S n, after d)])
                        (done ++ [S n])) as He3.
  { unfold e3, e2. rewrite He1. unfold frame. cbn [current].
    by destruct (hasTransition s). }
  exists cl1, cl3.
  split; [by rewrite He1|]. split; [by rewrite He3|].
  split.
  { intros x. unfold cl1. rewrite elem_of_addClasses, elem_of_app. tauto. }
  split.
  { intros x. unfold cl3, cl2, cl1.
    rewrite elem_of_removeClasses, elem_of_addClasses, elem_of_removeClasses,
      elem_of_addClasses, elem_of_app, elem_of_transitionClasses. tauto. }
  split; [by rewrite He1|]. split; [by rewrite He3|].
  split; [by rewrite He1|]. split; [by rewrite He3|]. split; [by rewrite He3|].
  intros Hs. exists cl2.
  assert (e2 = mkEngine (Some cl2) (Some (mkRun (S n) d c Listening)) (S n)
                        (log ++ [(S n, before d)]) done) as He2.
  { unfold e2. rewrite He1. unfold frame. cbn [current]. by rewrite Hs. }
  split; [by rewrite He2|]. split.
  { intros x. unfold cl2. rewrite elem_of_addClasses, elem_of_removeClasses. tauto. }
  by rewrite He2.
Qed.

Lemma class_mutations_ordered_witness :
  let classes := mkClasses ["enter"] ["from"] ["to"] in
  let style := mkComputedStyle [50] [] [] [] in
  let e2 := frame style (start Enter classes (create (Some {["page"]}))) in
  ∃ cl2 cl3,
    target e2 = Some cl2 ∧ target (signal e2) = Some cl3 ∧
    "to" ∈ cl2 ∧ "enter" ∈ cl2 ∧ ("from" ∉ cl2) ∧
    "page" ∈ cl3 ∧ ("enter" ∉ cl3) ∧ ("to" ∉ cl3).
Proof.
  intros classes style e2.
  destruct (class_mutations_ordered (create (Some {["page"]})) {["page"]} Enter classes style
              eq_refl)
    as (cl1 & cl3 & H1 & H3 & Hcl1 & Hcl3 & _ & _ & _ & _ & _ & Hmid).
  destruct (Hmid eq_refl) as (cl2 & H2 & Hcl2 & _).
  exists cl2, cl3. split; [exact H2|]. split; [exact H3|].
  assert ("enter" ∈ transitionClasses classes) as Henter by left.
  assert ("to" ∈ transitionClasses classes) as Hto by (right; right; left).
  assert ("from" ∉ ["enter"]) as Hfe.
  { intros H. apply list_elem_of_singleton in H. discriminate. }
  assert ("enter" ∉ ["from"]) as Hef.
  { intros H. apply list_elem_of_singleton in H. discriminate. }
  assert ("from" ∉ ["to"]) as Hft.
  { intros H. apply list_elem_of_singleton in H. discriminate. }
  assert ("from" ∈ ["from"]) as Hff by left.
  split; [apply Hcl2; right; left|].
  split; [apply Hcl2; left; split; [apply Hcl1; right; left; left | exact Hef]|].
  split.
  { intros H. apply Hcl2 in H as [[_ H]|H]; [by apply H | by apply Hft]. }
  split; [apply Hcl3; split; [by apply elem_of_singleton|]|].
  { unfold transitionClasses. simpl. intros H.
    repeat (apply elem_of_cons in H as [H|H]; [discriminate|]).
    by apply elem_of_nil in H. }
  split; intros H; apply Hcl3 in H as [_ H]; by apply H.
Defined.

Lemma eventsOf_snoc n log m ev :
  eventsOf n (log ++ [(m, ev)]) = eventsOf n log ++ (if decide (m = n) then [ev] else []).
Proof.
  unfold eventsOf. rewrite filter_app, fmap_app. f_equal.
  rewrite filter_cons, filter_nil. simpl. by destruct (decide (m = n)).
Qed.

Lemma logged_create tgt : logged (create tgt).
Proof.
  split; [done|]. split; [done|]. intros n _. exists Enter. by left.
Qed.

Lemma over_cancel e n :
  logged e → n ≤ started e → over (cancel e) n.
Proof.
  intros _ Hn. unfold cancel. destruct (current e) eqn:Hc; split; simpl; try done.
  by rewrite Hc.
Qed.

Lemma logged_cancel e : logged e → logged (cancel e).
Proof.
  intros Hl. pose proof Hl as (Hcur & Hnew & Hover).
  unfold cancel. destruct (current e) as [r|] eqn:Hc.
  - split; [done|]. split; [done|]. simpl. intros n [Hn _].
    destruct (decide (n = number r)) as [->|Hne].
    + exists (direction r). right. left. by apply Hcur.
    + apply Hover. split; [done|]. intros r' Hr'. congruence.
  - done.
Qed.

Lemma cancel_idle e : current (cancel e) = None.
Proof. unfold cancel. by destruct (current e) eqn:Hc. Qed.

Lemma cancel_log e : emitted (cancel e) = emitted e ∧ started (cancel e) = started e.
Proof. unfold cancel. by destruct (current e). Qed.

Lemma logged_finish e n d c :
  logged e → current e = Some (mkRun n d c Listening) →
  logged (finish (mkRun n d c Listening) e).
Proof.
  intros (Hcur & Hnew & Hover) Hc. destruct (Hcur _ Hc) as [Hn Hev]. simpl in Hn, Hev.
  unfold finish. cbn [number direction]. split; [done|]. split.
  - simpl. intros m Hm. rewrite eventsOf_snoc, decide_False by lia.
    rewrite app_nil_r. by apply Hnew.
  - unfold over. simpl. intros m [Hm _]. rewrite eventsOf_snoc.
    destruct (decide (n = m)) as [<-|Hne].
    + exists d. right. right. by rewrite Hev.
    + rewrite app_nil_r. apply Hover. split; [done|]. intros r' Hr'.
      rewrite Hc in Hr'. injection Hr' as <-. done.
Qed.

Lemma logged_step e op : logged e → logged (step e op).
Proof.
  intros Hl. destruct op as [d c|s| |]; simpl.
  - (* start *)
    unfold start. pose proof (logged_cancel e Hl) as (Hcur & Hnew & Hover).
    pose proof (cancel_idle e) as Hidle.
    destruct (target (cancel e)) as [cl|].
    + split; [|split]; unfold over; simpl.
      * intros r [= <-]. simpl. split; [done|].
        rewrite eventsOf_snoc, decide_True, Hnew by (done || lia). done.
      * intros n Hn. rewrite eventsOf_snoc, decide_False by lia.
        rewrite app_nil_r. apply Hnew. lia.
      * intros n [Hn Hr]. rewrite eventsOf_snoc.
        destruct (decide (S (started (cancel e)) = n)) as [<-|Hne].
        { exfalso. by apply (Hr _ eq_refl). }
        rewrite app_nil_r. apply Hover. split; [lia|]. by rewrite Hidle.
    + split; [|split]; unfold over; simpl.
      * done.
      * intros n Hn. apply Hnew. lia.
      * intros n [Hn _]. destruct (decide (n = S (started (cancel e)))) as [->|Hne].
        { exists Enter. left. apply Hnew. lia. }
        apply Hover. split; [lia|]. by rewrite Hidle.
  - (* frame *)
    unfold frame. destruct (current e) as [[n d c [|]]|] eqn:Hc; [|done|done].
    set (e' := mkEngine _ _ _ _ _).
    assert (logged e') as Hl'.
    { destruct Hl as (Hcur & Hnew & Hover). destruct (Hcur _ Hc) as [Hn Hev].
      split; [|split]; unfold over; simpl.
      - intros r [= <-]. done.
      - done.
      - intros m [Hm Hr]. apply Hover. split; [done|]. intros r' Hr'.
        rewrite Hc in Hr'. injection Hr' as <-. by apply (Hr _ eq_refl). }
    destruct (hasTransition s); [done|]. by apply logged_finish.
  - (* signal *)
    unfold signal. destruct (current e) as [[n d c [|]]|] eqn:Hc; [done| |done].
    by apply logged_finish.
  - by apply logged_cancel.
Qed.

Lemma logged_run e ops : logged e → logged (run e ops).
Proof.
  revert e. induction ops as [|op ops IH]; intros e Hl; [done|].
  apply IH. by apply logged_step.
Qed.

(** A run that is over stays over, and its events stay what they are. *)
Lemma over_step e op n :
  logged e → over e n →
  over (step e op) n ∧ eventsOf n (emitted (step e op)) = eventsOf n (emitted e).
Proof.
  intros (Hcur & Hnew & Hover) Ho. pose proof Ho as [Hn Hr].
  destruct op as [d c|s| |]; simpl.
  - unfold start. destruct (cancel_log e) as [Hlog Hst]. pose proof (cancel_idle e) as Hidle.
    destruct (target (cancel e)); (split; [split|]); simpl; rewrite ?Hst, ?Hlog; try lia.
    + intros r [= <-]. simpl. lia.
    + rewrite eventsOf_snoc, decide_False by lia. by rewrite app_nil_r.
    + done.
    + done.
  - unfold frame. destruct (current e) as [[m d c [|]]|] eqn:Hc; [|done|done].
    destruct (Hcur _ eq_refl) as [Hm _]. simpl in Hm.
    assert (m ≠ n) as Hne by (by apply (Hr _ eq_refl)).
    destruct (hasTransition s); (split; [split|]); simpl; try done.
    + intros r [= <-]. done.
    + rewrite eventsOf_snoc, decide_False by done. by rewrite app_nil_r.
  - unfold signal. destruct (current e) as [[m d c [|]]|] eqn:Hc; [done| |done].
    assert (m ≠ n) as Hne by (by apply (Hr _ eq_refl)).
    (split; [split|]); simpl; try done.
    rewrite eventsOf_snoc, decide_False by done. by rewrite app_nil_r.
  - destruct (cancel_log e) as [Hlog Hst]. rewrite Hlog. split; [|done].
    split; [by rewrite Hst|]. by rewrite cancel_idle.
Qed.

Lemma over_run e ops n :
  logged e → over e n → eventsOf n (emitted (run e ops)) = eventsOf n (emitted e).
Proof.
  revert e. induction ops as [|op ops IH]; intros e Hl Ho; [done|].
  destruct (over_step e op n Hl Ho) as [Ho' Heq]. simpl.
  rewrite IH; [done | by apply logged_step | done].
Qed.
Lemma cancel_target e cl :
  target e = Some cl → ∃ cl', target (cancel e) = Some cl'.
Proof.
  intros Ht. unfold cancel. destruct (current e); simpl; rewrite Ht; by eexists.
Qed.

Lemma full_run_log e cl d c s :
  target e = Some cl →
  let e3 := if hasTransition s then signal (frame s (start d c e)) else frame s (start d c e) in
  current e3 = None ∧ started e3 = S (started e) ∧
  emitted e3 = emitted e ++ [(S (started e), before d); (S (started e), after d)].
Proof.
  intros Ht. destruct (cancel_target e cl Ht) as [cl' Ht'].
  destruct (cancel_log e) as [Hlog Hst].
  unfold start. rewrite Ht', Hlog, Hst. unfold frame. cbn [current].
  destruct (hasTransition s); simpl; by rewrite <- app_assoc.
Qed.

(** C2: in every trace of the engine each run has emitted nothing, or
    its [before] event, or its [before] event and then its [after] event,
    each at most once and in this order; a run that has not started has
    emitted nothing. A full run on a present target emits its [before]
    and then its [after] event, once each, and nothing that happens later
    adds an event to it. A run that is cancelled or
    superseded while in flight has emitted its [before] event only, and no
    later frame, signal or start makes it emit its [after] event. *)
Theorem lifecycle_events_once_in_order (tgt : option (gset string)) (ops : list Op) :
  let e := run (create tgt) ops in
  (∀ n, ∃ d, eventsOf n (emitted e) = [] ∨ eventsOf n (emitted e) = [before d] ∨
             eventsOf n (emitted e) = [before d; after d]) ∧
  (∀ n, started e < n → eventsOf n (emitted e) = []) ∧
  (∀ cl d c s ops', target e = Some cl →
     let e3 :=
       if hasTransition s then signal (frame s (start d c e)) else frame s (start d c e) in
     emitted e3 = emitted e ++ [(S (started e), before d); (S (started e), after d)] ∧
     eventsOf (S (started e)) (emitted (run e3 ops')) = [before d; after d]) ∧
  (∀ r op ops', current e = Some r → op = Cancel ∨ (∃ d c, op = Start d c) →
     eventsOf (number r) (emitted e) = [before (direction r)] ∧
     eventsOf (number r) (emitted (run e (op :: ops'))) = [before (direction r)]).
Proof.
  intros e. assert (logged e) as Hl by apply logged_run, logged_create.
  pose proof Hl as (Hcur & Hnew & Hover). split; [|split; [done|split]].
  - intros n. destruct (decide (started e < n)) as [Hn|Hn].
    { exists Enter. left. by apply Hnew. }
    destruct (current e) as [r|] eqn:Hc.
    + destruct (decide (number r = n)) as [<-|Hne].
      * exists (direction r). right. left. by apply Hcur.
      * apply Hover. split; [lia|]. rewrite Hc. by intros r' [= <-].
    + apply Hover. split; [lia|]. by rewrite Hc.
  - intros cl d c s ops' Ht e3.
    destruct (full_run_log e cl d c s Ht) as (Hc3 & Hs3 & Hlog3). fold e3 in Hc3, Hs3, Hlog3.
    split; [done|].
    assert (logged e3) as Hl3.
    { unfold e3. destruct (hasTransition s).
      - apply (logged_step _ Signal), (logged_step _ (Frame s)), (logged_step _ (Start d c)), Hl.
      - apply (logged_step _ (Frame s)), (logged_step _ (Start d c)), Hl. }
    rewrite over_run; [|done|].
    + rewrite Hlog3.
      change [(S (started e), before d); (S (started e), after d)]
        with ([(S (started e), before d)] ++ [(S (started e), after d)]).
      rewrite app_assoc, !eventsOf_snoc, !decide_True, Hnew by (done || lia). done.
    + split; [lia|]. by rewrite Hc3.
  - intros r op ops' Hc Hop. destruct (Hcur _ Hc) as [Hn Hev]. split; [done|].
    change (run e (op :: ops')) with (run (step e op) ops').
    assert (over (step e op) (number r) ∧
            eventsOf (number r) (emitted (step e op)) = [before (direction r)]) as [Ho Hev'].
    { destruct (cancel_log e) as [Hlog Hst]. pose proof (cancel_idle e) as Hidle.
      destruct Hop as [->|(d & c & ->)]; simpl.
      - rewrite Hlog. split; [|done]. split; [rewrite Hst; lia|]. by rewrite Hidle.
      - unfold start. destruct (target (cancel e)); (split; [split|]); simpl;
          rewrite ?Hst, ?Hlog; try lia; try done.
        + intros r' [= <-]. simpl. lia.
        + rewrite eventsOf_snoc, decide_False by lia. by rewrite app_nil_r. }
    rewrite over_run; [done | by apply logged_step | done].
Qed.

Lemma lifecycle_events_once_in_order_witness :
  let classes := mkClasses ["enter"] ["from"] ["to"] in
  let style := mkComputedStyle [50] [] [] [] in
  eventsOf 1 (emitted (run (create (Some ∅))
                         [Start Enter classes; Frame style; Cancel; Signal; Frame style])) =
    [beforeEnter].
Proof.
  intros classes style.
  destruct (lifecycle_events_once_in_order (Some ∅) [Start Enter classes; Frame style])
    as (_ & _ & _ & Hcancel).
  apply (Hcancel (mkRun 1 Enter classes Listening) Cancel [Signal; Frame style]).
  - reflexivity.
  - left. reflexivity.
Defined.

End TransitionFacts.

(** ** The nested transition coordinator *)
Section NestedFacts.

Import Transition Nested.

Lemma busy_false c :
  busy c = false ↔ (∀ k, registry c !! k ≠ Some true) ∧ own c = Idle.
Proof.
  unfold busy. rewrite orb_false_iff, !bool_decide_eq_false. split.
  - intros [Hr Ho]. split.
    + intros k Hk. apply Hr. exists k, true. done.
    + by destruct (decide (own c = Idle)).
  - intros [Hr Ho]. split.
    + intros (k & b & Hk & ->). by apply (Hr k).
    + intros H. by apply H.
Qed.

Lemma pending_check c :
  pendingIdle (check c) = true ↔
  pendingIdle c = true ∨ ((∀ k, registry c !! k ≠ Some true) ∧ own c = Idle).
Proof.
  unfold check. destruct (busy c) eqn:Hb.
  - split; [by left|]. intros [?|H]; [done|].
    apply busy_false in H. congruence.
  - apply busy_false in Hb. simpl. split; [by right | done].
Qed.

Lemma check_rest c :
  registry (check c) = registry c ∧ own (check c) = own c ∧ fired (check c) = fired c.
Proof. unfold check. by destruct (busy c). Qed.

Lemma notifyBusy_same k v R o p n :
  R !! k = Some v →
  notifyBusy k v (mkCoordinator R o p n) = mkCoordinator R o p n.
Proof. intros HR. unfold notifyBusy. simpl. rewrite HR. by rewrite bool_decide_true. Qed.

Lemma notifyBusy_fall k R o p n :
  R !! k = Some true →
  notifyBusy k false (mkCoordinator R o p n) =
    check (mkCoordinator (<[k:=false]> R) o p n).
Proof. intros HR. unfold notifyBusy. simpl. rewrite HR. by rewrite bool_decide_false. Qed.

Lemma notifyBusy_rise k R o p n :
  R !! k = Some false →
  notifyBusy k true (mkCoordinator R o p n) = mkCoordinator (<[k:=true]> R) o false n.
Proof. intros HR. unfold notifyBusy. simpl. rewrite HR. by rewrite bool_decide_false. Qed.

Section DriveAll.

Variable f : Child → Engine.
Variables st st' : Mount → Child.
Variables bo bn : Mount → bool.

Hypothesis st_key : ∀ m, child (st m) = key m.
Hypothesis st_step :
  ∀ m, st' m = mkChild (child (st m)) (leave (st m)) (leaveDuration (st m)) (f (st m)).
Hypothesis bn_phase : ∀ m, bn m = bool_decide (phase (f (st m)) ≠ Idle).

Lemma driveAll_cons m ms b :
  driveAll f (st <$> m :: ms) b =
    let r := driveAll f (st <$> ms) (onCoordinator (notifyBusy (key m) (bn m)) b) in
    (r.1, st' m :: r.2).
Proof.
  rewrite fmap_cons. cbn [driveAll drive]. rewrite <- st_step, st_key, <- bn_phase.
  by destruct (driveAll _ _ _).
Qed.

Lemma driveAll_falling ms R p n sh mt :
  NoDup (key <$> ms) →
  (∀ m, m ∈ ms → R !! key m = Some (bo m)) →
  (∀ m, m ∈ ms → bn m = true → bo m = true) →
  ∃ R' p',
    driveAll f (st <$> ms) (mkBoundary (mkCoordinator R Idle p n) sh mt) =
      (mkBoundary (mkCoordinator R' Idle p' n) sh mt, st' <$> ms) ∧
    (∀ m, m ∈ ms → R' !! key m = Some (bn m)) ∧
    (∀ k, k ∉ key <$> ms → R' !! k = R !! k) ∧
    (p' = true ↔
       p = true ∨ ((∃ m, m ∈ ms ∧ bo m = true ∧ bn m = false) ∧ ∀ k, R' !! k ≠ Some true)).
Proof.
  revert R p. induction ms as [|m ms IH]; intros R p Hnd HR Hfall.
  - exists R, p. split; [done|]. split; [intros m Hm; by apply elem_of_nil in Hm|].
    split; [done|]. split; [by left|]. intros [?|[(m & Hm & _) _]]; [done|].
    by apply elem_of_nil in Hm.
  - rewrite fmap_cons in Hnd. apply NoDup_cons in Hnd as [Hm Hnd].
    assert (∀ m', m' ∈ ms → key m' ≠ key m) as Hne.
    { intros m' Hm' Heq. apply Hm. rewrite <- Heq. apply list_elem_of_fmap. by exists m'. }
    pose proof (HR m (list_elem_of_here _ _)) as HRm.
    rewrite driveAll_cons. unfold onCoordinator. cbn [coordinator show mounted].
    destruct (decide (bo m = bn m)) as [Hsame|Hsame].
    + (* the child reports what the registry holds already *)
      rewrite notifyBusy_same by (by rewrite <- Hsame).
      destruct (IH R p Hnd) as (R' & p' & Heq & Hnew & Hother & Hp).
      { intros m' Hm'. apply HR. by right. }
      { intros m' Hm'. apply Hfall. by right. }
      rewrite Heq. exists R', p'. split; [done|].
      split.
      { intros m' [->|Hm']%elem_of_cons; [|by apply Hnew].
        rewrite Hother, HRm by (intros (m' & Hk & Hm')%list_elem_of_fmap; by apply (Hne m')).
        by rewrite Hsame. }
      split.
      { intros k Hk. apply Hother. intros Hk'. apply Hk. rewrite fmap_cons. by right. }
      rewrite Hp. split.
      * intros [?|[(m' & Hm' & Hch) Hidle]]; [by left|right].
        split; [|done]. exists m'. split; [by right | done].
      * intros [?|[(m' & [->|Hm']%elem_of_cons & Hbo & Hbn) Hidle]]; [by left| |right].
        { congruence. }
        split; [|done]. by exists m'.
    + (* the child was busy and is idle now *)
      assert (bo m = true ∧ bn m = false) as [Hbo Hbn].
      { destruct (bn m) eqn:Hbn'; [|by destruct (bo m)].
        exfalso. apply Hsame. rewrite Hfall; [done | left | done]. }
      rewrite Hbn, notifyBusy_fall by (by rewrite <- Hbo).
      set (c1 := check _).
      destruct (check_rest (mkCoordinator (<[key m:=false]> R) Idle p n)) as (HR1 & Ho1 & Hf1).
      fold c1 in HR1, Ho1, Hf1. cbn [registry own fired pendingIdle] in HR1, Ho1, Hf1.
      pose proof (pending_check (mkCoordinator (<[key m:=false]> R) Idle p n)) as Hp1.
      fold c1 in Hp1. cbn [registry own fired pendingIdle] in Hp1.
      destruct c1 as [R1 o1 p1 n1]. cbn [registry own fired pendingIdle] in *. subst R1 o1 n1.
      destruct (IH (<[key m:=false]> R) p1 Hnd) as (R' & p' & Heq & Hnew & Hother & Hp).
      { intros m' Hm'. rewrite lookup_insert_ne by (intros ?; by apply (Hne m')).
        apply HR. by right. }
      { intros m' Hm'. apply Hfall. by right. }
      rewrite Heq. exists R', p'. split; [done|].
      assert (R' !! key m = Some false) as HRm'.
      { rewrite Hother by (intros (m' & Hk & Hm')%list_elem_of_fmap; by apply (Hne m')).
        by rewrite lookup_insert_eq. }
      split.
      { intros m' [->|Hm']%elem_of_cons; [by rewrite Hbn | by apply Hnew]. }
      split.
      { intros k Hk. rewrite Hother.
        - rewrite lookup_insert_ne; [done|]. intros <-. apply Hk. rewrite fmap_cons. left.
        - intros Hk'. apply Hk. rewrite fmap_cons. by right. }
      rewrite Hp, Hp1. split.
      * intros [[?|[Hidle _]]|[(m' & Hm' & Hch) Hidle]].
        -- by left.
        -- right. split; [exists m; split; [left | done]|].
           intros k Hk. destruct (decide (k ∈ key <$> ms)) as [Hin|Hout].
           ++ apply list_elem_of_fmap in Hin as (m' & -> & Hm').
              rewrite Hnew in Hk by done. injection Hk as Hk.
              apply (Hidle (key m')). rewrite lookup_insert_ne by (intros ?; by apply (Hne m')).
              rewrite HR by (by right). f_equal. apply Hfall; [by right | done].
           ++ rewrite Hother in Hk by done. by apply (Hidle k).
        -- right. split; [|done]. exists m'. split; [by right | done].
      * intros [?|[(m' & [->|Hm']%elem_of_cons & Hbo' & Hbn') Hidle]].
        -- by do 2 left.
        -- destruct (decide (Exists (λ m'', bo m'' = true ∧ bn m'' = false) ms))
             as [Hex|Hnex]; rewrite Exists_exists in *.
           ++ right. done.
           ++ left. right. split; [|done].
              intros k Hk. destruct (decide (k ∈ key <$> ms)) as [Hin|Hout].
              ** apply list_elem_of_fmap in Hin as (m'' & -> & Hm'').
                 rewrite lookup_insert_ne in Hk by (intros ?; by apply (Hne m'')).
                 rewrite HR in Hk by (by right). injection Hk as Hk.
                 destruct (bn m'') eqn:Hbn''.
                 --- apply (Hidle (key m'')). rewrite Hnew by done. by rewrite Hbn''.
                 --- apply Hnex. by exists m''.
              ** apply (Hidle k). by rewrite Hother.
        -- right. split; [|done]. by exists m'.
Qed.

Lemma driveAll_rising ms R o n sh mt :
  NoDup (key <$> ms) →
  (∀ m, m ∈ ms → R !! key m = Some false) →
  (∀ m, m ∈ ms → bn m = true) →
  ∃ R',
    driveAll f (st <$> ms) (mkBoundary (mkCoordinator R o false n) sh mt) =
      (mkBoundary (mkCoordinator R' o false n) sh mt, st' <$> ms) ∧
    (∀ m, m ∈ ms → R' !! key m = Some true) ∧
    (∀ k, k ∉ key <$> ms → R' !! k = R !! k).
Proof.
  revert R. induction ms as [|m ms IH]; intros R Hnd HR Hrise.
  - exists R. split; [done|]. split; [|done]. intros m Hm. by apply elem_of_nil in Hm.
  - rewrite fmap_cons in Hnd. apply NoDup_cons in Hnd as [Hm Hnd].
    assert (∀ m', m' ∈ ms → key m' ≠ key m) as Hne.
    { intros m' Hm' Heq. apply Hm. rewrite <- Heq. apply list_elem_of_fmap. by exists m'. }
    rewrite driveAll_cons. unfold onCoordinator. cbn [coordinator show mounted].
    rewrite (Hrise m) by left. rewrite notifyBusy_rise by (apply HR; left).
    destruct (IH (<[key m:=true]> R) Hnd) as (R' & Heq & Hnew & Hother).
    { intros m' Hm'. rewrite lookup_insert_ne by (intros ?; by apply (Hne m')).
      apply HR. by right. }
    { intros m' Hm'. apply Hrise. by right. }
    rewrite Heq. exists R'. split; [done|]. split.
    + intros m' [->|Hm']%elem_of_cons; [|by apply Hnew].
      rewrite Hother by (intros (m' & Hk & Hm')%list_elem_of_fmap; by apply (Hne m')).
      by rewrite lookup_insert_eq.
    + intros k Hk. rewrite Hother.
      * rewrite lookup_insert_ne; [done|]. intros <-. apply Hk. rewrite fmap_cons. left.
      * intros Hk'. apply Hk. rewrite fmap_cons. by right.
Qed.

End DriveAll.

Lemma phase_leaveStarted m : phase (leaveStarted m) = Leaving.
Proof. reflexivity. Qed.

Lemma phase_leaveSwapped m :
  phase (leaveSwapped m) = if bool_decide (0 < duration m) then Leaving else Idle.
Proof.
  unfold leaveSwapped, leaveStarted, start, frame, hasTransition. simpl.
  destruct (duration m); reflexivity.
Qed.

Lemma phase_leaveDone m : phase (leaveDone m) = Idle.
Proof.
  unfold leaveDone. case_bool_decide as Hd.
  - rewrite phase_leaveSwapped, Hd. done.
  - unfold leaveSwapped, leaveStarted, start, frame, hasTransition. simpl.
    destruct (duration m); [done | reflexivity].
Qed.

Lemma phase_childAt t m :
  bool_decide (phase (engine (childAt t m)) ≠ Idle) = bool_decide (t < duration m).
Proof.
  unfold childAt. cbn [engine]. destruct (decide (t < duration m)) as [Ht|Ht].
  - rewrite !(bool_decide_true (t < duration m)) by done.
    rewrite phase_leaveSwapped, (bool_decide_true (0 < _)) by lia. by apply bool_decide_true.
  - rewrite !(bool_decide_false (t < duration m)) by done.
    rewrite phase_leaveDone. apply bool_decide_false. intros H. by apply H.
Qed.

Lemma emitted_leaveDone m : emitted (leaveDone m) = [(1, beforeLeave); (1, afterLeave)].
Proof.
  unfold leaveDone, leaveSwapped, leaveStarted, start, frame, hasTransition. simpl.
  destruct (duration m); reflexivity.
Qed.


Lemma shown_registry chs :
  ∃ R, foldr (λ ch, register (child ch)) (mkCoordinator ∅ Idle false 0) (mount <$> chs) =
         mkCoordinator R Idle false 0 ∧
       (∀ m, m ∈ chs → R !! key m = Some false) ∧
       (∀ k, k ∉ key <$> chs → R !! k = None).
Proof.
  induction chs as [|m chs (R & Heq & Hin & Hout)].
  - exists ∅. split; [done|]. split; [|done]. intros m Hm. by apply elem_of_nil in Hm.
  - exists (<[key m:=false]> R). rewrite fmap_cons. cbn [foldr]. rewrite Heq.
    split; [done|]. split.
    + intros m' [->|Hm']%elem_of_cons; [by rewrite lookup_insert_eq|].
      destruct (decide (key m = key m')) as [->|Hne]; [by rewrite lookup_insert_eq|].
      rewrite lookup_insert_ne by done. by apply Hin.
    + intros k Hk. rewrite fmap_cons, not_elem_of_cons in Hk. destruct Hk as [Hk1 Hk2].
      rewrite lookup_insert_ne by done. by apply Hout.
Qed.

Lemma registry_idle (chs : list Mount) (R : gmap nat bool) (b : Mount → bool) :
  (∀ m, m ∈ chs → R !! key m = Some (b m)) →
  (∀ k, k ∉ key <$> chs → R !! k = None) →
  (∀ m, m ∈ chs → b m = false) →
  ∀ k, R !! k ≠ Some true.
Proof.
  intros Hin Hout Hb k Hk. destruct (decide (k ∈ key <$> chs)) as [Hk'|Hk'].
  - apply list_elem_of_fmap in Hk' as (m & -> & Hm).
    rewrite Hin, Hb in Hk by done. discriminate.
  - rewrite Hout in Hk by done. discriminate.
Qed.

Lemma process_eq R o p n sh mt :
  process (mkBoundary (mkCoordinator R o p n) sh mt) =
    if p then mkBoundary (mkCoordinator R o false (S n)) sh (mt && sh)
    else mkBoundary (mkCoordinator R o false n) sh mt.
Proof. unfold process. simpl. by destruct p. Qed.

Lemma ownPhase_leave R p n :
  ownPhase Leaving (mkCoordinator R Idle p n) = mkCoordinator R Leaving false n.
Proof. reflexivity. Qed.

Lemma ownPhase_idle R p n :
  ownPhase Idle (mkCoordinator R Leaving p n) = check (mkCoordinator R Idle p n).
Proof. reflexivity. Qed.

Lemma leaving_start chs :
  NoDup (key <$> chs) → leavingAt chs 0 (nextFrame (hide (shown chs))).
Proof.
  intros Hnd. destruct (shown_registry chs) as (R0 & HR0 & Hin0 & Hout0).
  unfold shown, hide. cbn [children parent coordinator mounted clock].
  rewrite HR0, ownPhase_leave.
  destruct (driveAll_rising (λ ch, start Leave (leave ch) (engine ch)) mount
              (λ m, mkChild (key m) (leaveClasses m) (duration m) (leaveStarted m))
              (λ _, true) (λ _, eq_refl) (λ _, eq_refl) (λ _, eq_refl)
              chs R0 Leaving 0 false true Hnd Hin0 (λ _ _, eq_refl))
    as (R1 & Heq1 & Hin1 & Hout1).
  rewrite Heq1, process_eq. unfold nextFrame.
  cbn [children parent coordinator mounted clock onCoordinator show].
  unfold onCoordinator. cbn [coordinator show mounted]. rewrite ownPhase_idle.
  pose proof (pending_check (mkCoordinator R1 Idle false 0)) as Hp0.
  destruct (check_rest (mkCoordinator R1 Idle false 0)) as (Hc1 & Hc2 & Hc3).
  destruct (check _) as [R1' o1 p0 n1]. cbn [registry own fired pendingIdle] in *.
  subst R1' o1 n1.
  destruct (driveAll_falling (λ ch, frame (leaveStyle ch) (engine ch))
              (λ m, mkChild (key m) (leaveClasses m) (duration m) (leaveStarted m))
              (childAt 0) (λ _, true) (λ m, bool_decide (0 < duration m)))
    with (ms := chs) (R := R1) (p := p0) (n := 0) (sh := false) (mt := true)
    as (R' & p' & Heq & Hin & Hout & Hp); try done.
  { intros m. unfold childAt, leaveDone. cbn [child leave leaveDuration engine].
    f_equal. repeat case_bool_decide; (done || lia). }
  { intros m. change (frame _ _) with (leaveSwapped m). rewrite phase_leaveSwapped.
    by case_bool_decide. }
  rewrite Heq, process_eq.
  assert (∀ k, k ∉ key <$> chs → R' !! k = None) as Hout'.
  { intros k Hk. rewrite Hout, Hout1 by done. by apply Hout0. }
  destruct p'.
  - exists R', 1, false. split; [done|]. split; [done|]. split; [done|].
    split; [|done]. split; [done|]. intros (m & Hm & Hd). exfalso.
    destruct (proj1 Hp eq_refl) as [Hp1|[_ Hp1]].
    + apply Hp0 in Hp1 as [Hp1|[Hp1 _]]; [done|]. apply (Hp1 (key m)). by apply Hin1.
    + apply (Hp1 (key m)). rewrite Hin by done. by rewrite bool_decide_true.
  - exists R', 0, true. split; [done|]. split; [done|]. split; [done|].
    split; [|done]. split; [|done]. intros _.
    destruct (decide (Exists (λ m, 0 < duration m) chs)) as [Hex|Hnex];
      rewrite Exists_exists in *; [done|]. exfalso.
    assert (∀ m, m ∈ chs → bool_decide (0 < duration m) = false) as Hzero.
    { intros m Hm. apply bool_decide_false. intros Hd. apply Hnex. by exists m. }
    assert (false = true) as Habs; [|discriminate]. apply Hp.
    destruct chs as [|m chs].
    + left. apply Hp0. right. split; [|done]. intros k. rewrite Hout1, Hout0; [done| |];
        apply not_elem_of_nil.
    + right. split.
      * exists m. split; [left|]. split; [done|]. apply Hzero. left.
      * by apply (registry_idle (m :: chs) _ (λ m, bool_decide (0 < duration m))).
Qed.

Lemma leaving_tick chs t w :
  NoDup (key <$> chs) → leavingAt chs t w → leavingAt chs (S t) (tick w).
Proof.
  intros Hnd (R & n & mt & -> & Hin & Hout & Hmt & Hn).
  unfold tick. cbn [children parent clock].
  destruct (driveAll_falling
              (λ ch, if bool_decide (leaveDuration ch = S t) then signal (engine ch) else engine ch)
              (childAt t) (childAt (S t))
              (λ m, bool_decide (t < duration m)) (λ m, bool_decide (S t < duration m)))
    with (ms := chs) (R := R) (p := false) (n := n) (sh := false) (mt := mt)
    as (R' & p' & Heq & Hin' & Hout' & Hp); try done.
  { intros m. unfold childAt, leaveDone. cbn [child leave leaveDuration engine].
    f_equal. repeat case_bool_decide; (done || lia). }
  { intros m. cbn [leaveDuration engine childAt].
    destruct (decide (duration m = S t)) as [Hd|Hd].
    - rewrite (bool_decide_true (duration m = S t)), (bool_decide_true (t < duration m)) by lia.
      rewrite (bool_decide_false (S t < _)) by lia.
      pose proof (phase_leaveDone m) as Hdone. unfold leaveDone in Hdone.
      rewrite bool_decide_false in Hdone by lia. rewrite Hdone.
      symmetry. apply bool_decide_false. intros H. by apply H.
    - rewrite (bool_decide_false (duration m = S t)) by done.
      rewrite <- (phase_childAt (S t) m). unfold childAt. cbn [engine].
      f_equal. repeat case_bool_decide; (done || lia). }
  { intros m _. rewrite !bool_decide_eq_true. lia. }
  rewrite Heq, process_eq.
  assert (∀ k, k ∉ key <$> chs → R' !! k = None) as Hout''.
  { intros k Hk. rewrite Hout' by done. by apply Hout. }
  destruct p'.
  - exists R', (S n), (mt && false). split; [done|]. split; [done|]. split; [done|].
    rewrite andb_false_r. destruct (proj1 Hp eq_refl) as [?|[Hchange Hidle]]; [done|].
    split.
    + split; [done|]. intros (m & Hm & Hd). exfalso.
      apply (Hidle (key m)). rewrite Hin' by done. by rewrite bool_decide_true.
    + destruct Hchange as (m & Hm & Hd & _). apply bool_decide_eq_true in Hd.
      rewrite (proj2 Hmt) in Hn by (by exists m). by rewrite Hn.
  - exists R', n, mt. split; [done|]. split; [done|]. split; [done|].
    split; [|done]. rewrite Hmt. split.
    + intros (m0 & Hm0 & Hd0).
      destruct (decide (Exists (λ m, S t < duration m) chs)) as [Hex|Hnex];
        rewrite Exists_exists in *; [done|]. exfalso.
      assert (∀ m, m ∈ chs → bool_decide (S t < duration m) = false) as Hzero.
      { intros m Hm. apply bool_decide_false. intros Hd. apply Hnex. by exists m. }
      assert (false = true) as Habs; [|discriminate]. apply Hp. right. split.
      * exists m0. split; [done|]. split; [by apply bool_decide_true | by apply Hzero].
      * by apply (registry_idle chs _ (λ m, bool_decide (S t < duration m))).
    + intros (m & Hm & Hd). exists m. split; [done | lia].
Qed.

Lemma leaving_at chs t : NoDup (key <$> chs) → leavingAt chs t (leaving chs t).
Proof.
  intros Hnd. unfold leaving. induction t as [|t IH]; simpl.
  - by apply leaving_start.
  - by apply leaving_tick.
Qed.

(** The timeline of the nested-transitions test: the fast child is gone
    after 50 milliseconds while the parent and the slow child are still
    there; the parent goes with the slow child after 150 milliseconds. *)
Example test_nested_leave :
  let at_ t := leaving [fast; slow] t in
  (mounted (parent (at_ 0)), childMounted (at_ 0) <$> children (at_ 0)) = (true, [true; true]) ∧
  (mounted (parent (at_ 49)), childMounted (at_ 49) <$> children (at_ 49)) = (true, [true; true]) ∧
  (mounted (parent (at_ 50)), childMounted (at_ 50) <$> children (at_ 50)) = (true, [false; true]) ∧
  (mounted (parent (at_ 149)), childMounted (at_ 149) <$> children (at_ 149)) = (true, [false; true]) ∧
  (mounted (parent (at_ 150)), childMounted (at_ 150) <$> children (at_ 150)) = (false, [false; false]) ∧
  fired (coordinator (parent (at_ 150))) = 1 ∧
  fired (coordinator (parent (at_ 400))) = 1.
Proof. vm_compute. done. Qed.

(** C3: once a parent without a transition of its own is told to hide,
    it is mounted after [t] milliseconds if and only if the leave of at
    least one of its children takes longer than that: it stays while a
    child is busy leaving and goes when the slowest one is done, and its
    completion callback has fired once by then and not before. Each child
    is in the output exactly while its own leave lasts, and has emitted
    its [afterLeave] event exactly when its duration has elapsed. *)
Theorem parent_waits_for_slowest_child (chs : list Mount) (t : nat) :
  NoDup (key <$> chs) →
  let w := leaving chs t in
  (mounted (parent w) = true ↔ ∃ m, m ∈ chs ∧ t < duration m) ∧
  fired (coordinator (parent w)) = (if mounted (parent w) then 0 else 1) ∧
  (child <$> children w) = (key <$> chs) ∧
  (∀ ch, ch ∈ children w →
     (phase (engine ch) ≠ Idle ↔ t < leaveDuration ch) ∧
     (childMounted w ch = true ↔ t < leaveDuration ch) ∧
     ((1, afterLeave) ∈ emitted (engine ch) ↔ leaveDuration ch ≤ t)).
Proof.
  intros Hnd w.
  destruct (leaving_at chs t Hnd) as (R & n & mt & Hw & Hin & Hout & Hmt & Hn).
  fold w in Hw. rewrite Hw. cbn [parent mounted children coordinator fired].
  split; [done|]. split; [done|]. split.
  { rewrite <- list_fmap_compose. by apply list_fmap_ext. }
  intros ch (m & -> & Hm)%list_elem_of_fmap.
  pose proof (phase_childAt t m) as Hph.
  assert (phase (engine (childAt t m)) ≠ Idle ↔ t < duration m) as Hbusy.
  { rewrite <- (bool_decide_eq_true (t < _)), <- Hph. by rewrite bool_decide_eq_true. }
  split; [done|]. split.
  - unfold childMounted. cbn [parent mounted show]. rewrite Hph.
    rewrite orb_false_l, andb_true_iff, bool_decide_eq_true, Hmt. split; [tauto|].
    intros Hd. split; [by exists m | done].
  - unfold childAt. cbn [engine leaveDuration].
    destruct (decide (t < duration m)) as [Hd|Hd].
    + rewrite bool_decide_true by done. split; [|lia].
      unfold leaveSwapped, leaveStarted, start, frame, hasTransition. simpl.
      destruct (duration m) eqn:Hdm; [lia|]. simpl.
      intros H. apply list_elem_of_singleton in H. discriminate.
    + rewrite bool_decide_false by done. rewrite emitted_leaveDone.
      split; [lia|]. intros _. right. left.
Qed.

Lemma parent_waits_for_slowest_child_witness :
  mounted (parent (leaving [fast; slow] 50)) = true ∧
  mounted (parent (leaving [fast; slow] 150)) = false.
Proof.
  assert (NoDup (key <$> [fast; slow])) as Hnd.
  { apply NoDup_cons. split; [|apply NoDup_singleton].
    intros H. apply list_elem_of_singleton in H. discriminate. }
  split.
  - apply (proj1 (parent_waits_for_slowest_child [fast; slow] 50 Hnd)).
    exists slow. split; [right; left | simpl; lia].
  - destruct (mounted (parent (leaving [fast; slow] 150))) eqn:Hm; [|reflexivity].
    apply (proj1 (parent_waits_for_slowest_child [fast; slow] 150 Hnd)) in Hm
      as (m & Hin & Hd).
    apply elem_of_cons in Hin as [->|Hin]; [simpl in Hd; lia|].
    apply list_elem_of_singleton in Hin as ->. simpl in Hd. lia.
Defined.

End NestedFacts.

(** ** The disclosure *)
Section DisclosureFacts.

Import Disclosure.

Variables Space Enter : string.

Lemma toggleDisclosure_involutive s : toggleDisclosure (toggleDisclosure s) = s.
Proof. by destruct s. Qed.

Lemma dispatch_state s ev :
  (dispatch Space Enter s ev).1 =
    if toggles Space Enter ev then toggleDisclosure s else s.
Proof.
  destruct ev as [disabled [|key|key]]; unfold dispatch, toggles; simpl.
  - unfold handleClick. by destruct disabled.
  - unfold handleKeyDown. destruct disabled; [done|]. simpl.
    by destruct (bool_decide (key = Space) || bool_decide (key = Enter)).
  - unfold handleKeyUp. rewrite andb_false_r. by case_bool_decide.
Qed.

(** X1: after any sequence of clicks, key downs and key ups on the
    button the disclosure is in its first state if the number of events
    that toggle it (a click, or a key down of Space or Enter, on a button
    that is not disabled) is even, and in the other state if it is odd;
    toggling twice changes nothing. *)
Theorem disclosure_toggle_parity (s : DisclosureStates) (evs : list (bool * ButtonEvent)) :
  run Space Enter s evs =
    (if Nat.even (length (filter (λ ev, toggles Space Enter ev = true) evs))
     then s else toggleDisclosure s) ∧
  toggleDisclosure (toggleDisclosure s) = s.
Proof.
  split; [|apply toggleDisclosure_involutive].
  revert s. induction evs as [|ev evs IH]; intros s; [done|].
  unfold run in *. cbn [foldl]. rewrite IH, dispatch_state, filter_cons.
  destruct (toggles Space Enter ev) eqn:Ht.
  - rewrite decide_True by done. cbn [length]. rewrite Nat.even_succ, <- Nat.negb_even.
    destruct (Nat.even _); simpl; [done|]. apply toggleDisclosure_involutive.
  - by rewrite decide_False by done.
Qed.

(** X2: while the button is disabled no click and no key changes the
    state of the disclosure, no handler stops the propagation of an event,
    and the only event whose default is prevented is a key up of Space. *)
Theorem disclosure_disabled_never_toggles (s : DisclosureStates)
    (evs : list (bool * ButtonEvent)) :
  (∀ ev, ev ∈ evs → ev.1 = true) →
  run Space Enter s evs = s ∧
  (∀ ev s', ev ∈ evs →
     (dispatch Space Enter s' ev).1 = s' ∧
     (StopPropagation ∉ (dispatch Space Enter s' ev).2) ∧
     (PreventDefault ∈ (dispatch Space Enter s' ev).2 ↔ ev.2 = KeyUp Space)).
Proof.
  intros Hdis. split.
  - induction evs as [|ev evs IH]; [done|].
    unfold run in *. cbn [foldl]. rewrite dispatch_state.
    unfold toggles. rewrite (Hdis ev) by left. simpl.
    apply IH. intros ev' Hev'. apply Hdis. by right.
  - intros [disabled ev] s' Hev. apply Hdis in Hev. simpl in Hev. subst disabled.
    unfold dispatch. destruct ev as [|key|key]; simpl.
    + split; [done|]. split; [apply not_elem_of_nil|]. split; [by intros ?%elem_of_nil | done].
    + split; [done|]. split; [apply not_elem_of_nil|]. split; [by intros ?%elem_of_nil | done].
    + unfold handleKeyUp. case_bool_decide as Hk; simpl.
      * split; [done|]. split.
        { intros H%list_elem_of_singleton. discriminate. }
        split; [intros _; by rewrite Hk | intros _; left].
      * split; [done|]. split; [apply not_elem_of_nil|].
        split; [by intros ?%elem_of_nil | intros [= ?]; done].
Qed.

(** X3: a key down changes the state exactly when the button is not
    disabled and the key is Space or Enter, and it is then, and only then,
    that its default is prevented and its propagation stopped; a key up
    never changes the state and never stops the propagation. *)
Theorem disclosure_key_swallowed_iff_toggled (disabled : bool) (key : string)
    (s : DisclosureStates) :
  let down := handleKeyDown Space Enter disabled key s in
  let up := handleKeyUp Space key s in
  (down.1 ≠ s ↔ disabled = false ∧ (key = Space ∨ key = Enter)) ∧
  (StopPropagation ∈ down.2 ↔ down.1 ≠ s) ∧
  (PreventDefault ∈ down.2 ↔ down.1 ≠ s) ∧
  up.1 = s ∧ StopPropagation ∉ up.2.
Proof.
  intros down up. unfold down, up, handleKeyDown, handleKeyUp.
  assert (toggleDisclosure s ≠ s) as Hne by (by destruct s).
  destruct disabled; simpl.
  { split; [split; [done | by intros [? _]]|].
    split; [split; [by intros ?%elem_of_nil | done]|].
    split; [split; [by intros ?%elem_of_nil | done]|].
    split; [by case_bool_decide|]. case_bool_decide; simpl; [|apply not_elem_of_nil].
    intros Hin%list_elem_of_singleton. discriminate. }
  destruct (bool_decide (key = Space) || bool_decide (key = Enter)) eqn:Hk; simpl.
  - apply orb_true_iff in Hk. rewrite !bool_decide_eq_true in Hk.
    split; [done|]. split; [split; [done | intros _; right; left]|].
    split; [split; [done | intros _; left]|].
    split; [by case_bool_decide|]. case_bool_decide; simpl; [|apply not_elem_of_nil].
    intros Hin%list_elem_of_singleton. discriminate.
  - apply orb_false_iff in Hk. rewrite !bool_decide_eq_false in Hk.
    split; [split; [done | intros [_ ?]; tauto]|].
    split; [split; [by intros ?%elem_of_nil | done]|].
    split; [split; [by intros ?%elem_of_nil | done]|].
    split; [by case_bool_decide|]. case_bool_decide; simpl; [|apply not_elem_of_nil].
    intros Hin%list_elem_of_singleton. discriminate.
Qed.

End DisclosureFacts.

Lemma disclosure_disabled_never_toggles_witness :
  Disclosure.run " " "Enter" Disclosure.Open
    [(true, Disclosure.Click); (true, Disclosure.KeyDown " ");
     (true, Disclosure.KeyUp " "); (true, Disclosure.KeyDown "Enter")] = Disclosure.Open.
Proof.
  refine (proj1 (disclosure_disabled_never_toggles " " "Enter" Disclosure.Open
           [(true, Disclosure.Click); (true, Disclosure.KeyDown " ");
            (true, Disclosure.KeyUp " "); (true, Disclosure.KeyDown "Enter")] _)).
  intros ev Hev. repeat (apply elem_of_cons in Hev as [->|Hev]; [reflexivity|]).
  by apply elem_of_nil in Hev.
Defined.

(** ** The rest of the dialog *)
Section DialogPartsFacts.

Import Dialog DialogParts.

Lemma titleId_setTitleId t d : titleId (setTitleId t d) = t.
Proof. unfold setTitleId. by case_decide. Qed.

Lemma setTitleId_frame t d :
  id (setTitleId t d) = id d ∧ containers (setTitleId t d) = containers d ∧
  open (setTitleId t d) = open d ∧ enabled (setTitleId t d) = enabled d ∧
  hooks (setTitleId t d) = hooks d.
Proof. unfold setTitleId. by case_decide. Qed.

(** X4: after any sequence of titles mounting and unmounting, the title
    id of the dialog is the one the last event set: the id of the title that
    mounted last, or none when the last event is an unmount, even of a
    title other than the one whose id was held. Nothing else of the dialog
    changes. *)
Theorem title_id_follows_last_event (d : Instance) (evs : list TitleEvent) :
  titleId (titleRun d evs) =
    match last evs with
    | None => titleId d
    | Some (TitleMounted uid) => Some (titleIdOf uid)
    | Some (TitleUnmounted _) => None
    end ∧
  id (titleRun d evs) = id d ∧ containers (titleRun d evs) = containers d ∧
  open (titleRun d evs) = open d ∧ enabled (titleRun d evs) = enabled d.
Proof.
  induction evs as [|ev evs IH] using rev_ind; [done|].
  unfold titleRun in *. rewrite foldl_app, last_snoc. cbn [foldl].
  destruct IH as (_ & Hid & Hc & Ho & He).
  destruct ev as [uid|uid]; cbn [titleStep];
    (split; [apply titleId_setTitleId|]).
  - destruct (setTitleId_frame (Some (titleIdOf uid)) (foldl titleStep d evs))
      as (-> & -> & -> & -> & _); done.
  - destruct (setTitleId_frame None (foldl titleStep d evs))
      as (-> & -> & -> & -> & _); done.
Qed.

Lemma bubbleClick_overlay : bubbleClick (clickPath OnOverlay) = overlayHandleClick.
Proof. reflexivity. Qed.

(** X5: a press of the mouse button and the click that follows it close
    the dialog once when they land on the overlay, whatever the state of
    the dialog, and never when they land elsewhere inside the dialog: the
    overlay stops the click before the handler of the dialog runs, and the
    press is inside a registered container. *)
Theorem click_inside_closes_at_most_once (contains : gset nat → nat → bool)
    (d : Instance) (target : nat) :
  contains (containers d) target = true →
  (handleMouseDown contains d target ++ bubbleClick (clickPath OnOverlay) =
     [PreventDefault; StopPropagation; close]) ∧
  (handleMouseDown contains d target ++ bubbleClick (clickPath InDialog) =
     [PreventDefault; StopPropagation]) ∧
  bubbleClick (clickPath Outside) = [].
Proof.
  intros Hc.
  assert (handleMouseDown contains d target = []) as ->.
  { unfold handleMouseDown. rewrite Hc. by repeat case_bool_decide. }
  done.
Qed.

Lemma click_inside_closes_at_most_once_witness :
  handleMouseDown (λ cs t, bool_decide (t ∈ cs))
    (mkInstance "headlessui-dialog-1" {[7]} true true None []) 7 ++
  bubbleClick (clickPath OnOverlay) = [PreventDefault; StopPropagation; close].
Proof.
  refine (proj1 (click_inside_closes_at_most_once (λ cs t, bool_decide (t ∈ cs))
                   (mkInstance "headlessui-dialog-1" {[7]} true true None []) 7 _)).
  vm_compute. reflexivity.
Defined.

Lemma observerCallback_replicate entries :
  observerCallback entries =
    replicate
      (length (filter (λ r, x r = 0 ∧ y r = 0 ∧ width r = 0 ∧ height r = 0)%Z entries))
      close.
Proof.
  induction entries as [|r entries IH]; [done|].
  cbn [observerCallback]. rewrite IH, filter_cons.
  destruct (decide (x r = 0 ∧ y r = 0 ∧ width r = 0 ∧ height r = 0)%Z) as [(-> & -> & -> & ->)|Hn].
  - done.
  - repeat case_bool_decide; simpl; try done. exfalso. by apply Hn.
Qed.

(** X6: the observer of the dialog asks to close once for every entry
    whose bounding rectangle is zero in all four numbers, and does nothing
    else; it exists only when the effect ran in the open state with the
    element of the dialog present, and after it is disconnected nothing is
    delivered any more. *)
Theorem observer_closes_per_hidden_entry (st : DialogStates) (container : option nat)
    (entries : list Rect) :
  deliver (observe st container) entries =
    (if bool_decide (st = Open ∧ is_Some container)
     then replicate
            (length (filter (λ r, x r = 0 ∧ y r = 0 ∧ width r = 0 ∧ height r = 0)%Z entries))
            close
     else []) ∧
  deliver (disconnect (observe st container)) entries = [].
Proof.
  split; [|done]. unfold observe, deliver.
  rewrite <- observerCallback_replicate.
  destruct st, container as [c|]; repeat case_bool_decide; try done;
    try naive_solver.
Qed.

Lemma close_in_handleKeyDown_escape d :
  close ∈ handleKeyDown d {| key := Keys_Escape |} ↔
  dialogState d = Open ∧ size (containers d) ≤ 1.
Proof.
  rewrite close_in_handleKeyDown. simpl. tauto.
Qed.

(** X7: whenever a press of the mouse button outside closes the dialog,
    the Escape key closes it too; the converse fails, since a dialog with no
    registered container closes on Escape and never on a press outside.
    Either handler leaves the event alone unless it closes: a key that is
    not Escape is never stopped, and the focus is moved to the target of
    the press only when the press closes the dialog. *)
Theorem outside_click_implies_escape (contains : gset nat → nat → bool)
    (d : Instance) (target : nat) (event : KeyboardEvent) :
  (close ∈ handleMouseDown contains d target →
     close ∈ handleKeyDown d {| key := Keys_Escape |}) ∧
  (containers d = ∅ → dialogState d = Open →
     close ∈ handleKeyDown d {| key := Keys_Escape |} ∧
     handleMouseDown contains d target = []) ∧
  (handleKeyDown d event = [] ∨
   handleKeyDown d event = [PreventDefault; StopPropagation; close]) ∧
  (key event ≠ Keys_Escape → handleKeyDown d event = []) ∧
  (handleMouseDown contains d target = [] ∨
   handleMouseDown contains d target = [close; NextTickFocus target]).
Proof.
  split; [|split; [|split; [|split]]].
  - rewrite close_in_handleMouseDown, close_in_handleKeyDown_escape.
    intros (Ho & Hs & _). split; [done | lia].
  - intros Hc Ho. split.
    + apply close_in_handleKeyDown_escape. split; [done|]. rewrite Hc, size_empty. lia.
    + unfold handleMouseDown. rewrite Hc, size_empty.
      case_bool_decide; [done|]. by rewrite bool_decide_true.
  - unfold handleKeyDown. repeat case_bool_decide; auto.
  - intros Hk. unfold handleKeyDown. by rewrite bool_decide_true.
  - unfold handleMouseDown. repeat case_bool_decide; auto.
    destruct (contains _ _); auto.
Qed.

Lemma outside_click_implies_escape_witness :
  close ∈ handleKeyDown (mkInstance "headlessui-dialog-1" ∅ true true None [])
            {| key := "Escape" |} ∧
  handleMouseDown (λ cs t, bool_decide (t ∈ cs))
    (mkInstance "headlessui-dialog-1" ∅ true true None []) 9 = [].
Proof.
  destruct (outside_click_implies_escape (λ cs t, bool_decide (t ∈ cs))
              (mkInstance "headlessui-dialog-1" ∅ true true None []) 9
              {| key := "Escape" |}) as (_ & Hempty & _).
  apply Hempty; reflexivity.
Defined.

Lemma onStackUpdate_add_remove d e :
  e ∉ containers d → onStackUpdate RemoveElement e (onStackUpdate AddElement e d) = d.
Proof. destruct d as [i cs o en t h]. simpl. intros He. f_equal. set_solver. Qed.

(** X8: the messages of the stack context act on the container set as
    on a set: adding an element twice is adding it once; removing an element
    that was added to a set that did not hold it gives the dialog back;
    removing an element that is not there changes nothing; an element added
    twice is gone after one removal. No message touches anything but the
    container set. *)
Theorem stack_messages_act_on_a_set (d : Instance) (e : nat) :
  onStackUpdate AddElement e (onStackUpdate AddElement e d) = onStackUpdate AddElement e d ∧
  (e ∉ containers d →
     onStackUpdate RemoveElement e (onStackUpdate AddElement e d) = d ∧
     onStackUpdate RemoveElement e d = d) ∧
  (e ∉ containers
         (onStackUpdate RemoveElement e
            (onStackUpdate AddElement e (onStackUpdate AddElement e d)))) ∧
  (∀ m, id (onStackUpdate m e d) = id d ∧ open (onStackUpdate m e d) = open d ∧
        enabled (onStackUpdate m e d) = enabled d ∧
        titleId (onStackUpdate m e d) = titleId d ∧
        hooks (onStackUpdate m e d) = hooks d ∧
        dialogState (onStackUpdate m e d) = dialogState d).
Proof.
  destruct d as [i cs o en t h]. simpl. split; [|split; [|split]].
  - f_equal. set_solver.
  - intros He. split; f_equal; set_solver.
  - set_solver.
  - by intros [].
Qed.

Lemma stack_messages_act_on_a_set_witness :
  onStackUpdate RemoveElement 8
    (onStackUpdate AddElement 8 (mkInstance "headlessui-dialog-1" {[7]} true true None [])) =
  mkInstance "headlessui-dialog-1" {[7]} true true None [].
Proof.
  destruct (stack_messages_act_on_a_set
              (mkInstance "headlessui-dialog-1" {[7]} true true None []) 8)
    as (_ & Hback & _).
  apply Hback. simpl. intros H. apply elem_of_singleton in H. discriminate.
Defined.

(** X9: an open dialog that holds its own element alone closes on Escape
    and on a press outside; once another element is registered with it
    neither closes it, for no key and no target; once that element is
    removed again both close it as before. *)
Theorem nested_region_blocks_closing (contains : gset nat → nat → bool)
    (d : Instance) (own e target : nat) (event : KeyboardEvent) :
  containers d = {[own]} → e ≠ own → dialogState d = Open →
  let nested := onStackUpdate AddElement e d in
  handleKeyDown nested event = [] ∧
  handleMouseDown contains nested target = [] ∧
  handleKeyDown (onStackUpdate RemoveElement e nested) {| key := Keys_Escape |} =
    handleKeyDown d {| key := Keys_Escape |} ∧
  handleKeyDown d {| key := Keys_Escape |} = [PreventDefault; StopPropagation; close] ∧
  handleMouseDown contains (onStackUpdate RemoveElement e nested) target =
    handleMouseDown contains d target.
Proof.
  intros Hc Hne Ho nested.
  assert (size (containers nested) = 2) as Hs.
  { unfold nested. simpl. rewrite Hc, size_union by set_solver.
    by rewrite !size_singleton. }
  assert (onStackUpdate RemoveElement e nested = d) as Hback.
  { apply onStackUpdate_add_remove. rewrite Hc. set_solver. }
  split; [apply handleKeyDown_covered; lia|].
  split.
  { unfold handleMouseDown. case_bool_decide; [done|]. by rewrite bool_decide_true by lia. }
  rewrite Hback. split; [done|]. split; [|done].
  apply handleKeyDown_escape; [done|]. rewrite Hc, size_singleton. lia.
Qed.

Lemma nested_region_blocks_closing_witness :
  handleKeyDown
    (onStackUpdate AddElement 8 (mkInstance "headlessui-dialog-1" {[7]} true true None []))
    {| key := "Escape" |} = [].
Proof.
  refine (proj1 (nested_region_blocks_closing (λ cs t, bool_decide (t ∈ cs))
                   (mkInstance "headlessui-dialog-1" {[7]} true true None [])
                   7 8 9 {| key := "Escape" |} _ _ _)).
  - reflexivity.
  - discriminate.
  - reflexivity.
Defined.

Lemma propsWeControl_lookup attrs describedby d k :
  propsWeControl attrs describedby d !! k =
    if decide (k = "onKeydown") then Some (AFunction "handleKeyDown")
    else if decide (k = "onClick") then Some (AFunction "handleClick")
    else if decide (k = "aria-describedby") then Some describedby
    else if decide (k = "aria-labelledby") then Some (titleAttr d)
    else if decide (k = "aria-modal")
         then Some (if bool_decide (dialogState d = Open) then ABool true else AUndefined)
    else if decide (k = "role") then Some (AString "dialog")
    else if decide (k = "id") then Some (AString (id d))
    else if decide (k = "ref") then Some (AString "el")
    else attrs !! k.
Proof.
  unfold propsWeControl.
  rewrite !lookup_insert. repeat case_decide; congruence.
Qed.

Ltac decide_keys :=
  repeat first [rewrite decide_True by done | rewrite decide_False by done].

(** X12: in the props the dialog hands to [render], the eight keys the
    dialog sets itself have the values the dialog gives them, whatever the
    attributes and the props of the caller hold under these keys; under
    every other key an attribute goes before a prop, and the props [open]
    and [initialFocus] are never handed on. [aria-modal] is [true] exactly
    when the dialog is open, and is otherwise present with the value
    [undefined]. *)
Theorem dialog_controls_its_props (props attrs : gmap string Attr) (describedby : Attr)
    (d : Instance) (k : string) :
  (k ∈ controlledKeys →
     renderProps props attrs describedby d !! k = propsWeControl ∅ describedby d !! k ∧
     is_Some (renderProps props attrs describedby d !! k)) ∧
  (k ∉ controlledKeys →
     renderProps props attrs describedby d !! k =
       match attrs !! k with
       | Some v => Some v
       | None => if bool_decide (k = "open" ∨ k = "initialFocus") then None else props !! k
       end) ∧
  (renderProps props attrs describedby d !! "aria-modal" = Some (ABool true) ↔
     dialogState d = Open) ∧
  (dialogState d = Closed →
     renderProps props attrs describedby d !! "aria-modal" = Some AUndefined) ∧
  renderProps props attrs describedby d !! "id" = Some (AString (id d)) ∧
  renderProps props attrs describedby d !! "aria-labelledby" = Some (titleAttr d).
Proof.
  unfold renderProps, controlledKeys.
  split; [|split; [|split; [|split; [|split]]]].
  - intros Hk.
    repeat (apply elem_of_cons in Hk as [->|Hk];
            [rewrite lookup_union, !propsWeControl_lookup; decide_keys;
             rewrite union_Some_l; by (split; [|eexists])|]).
    by apply elem_of_nil in Hk.
  - intros Hk. rewrite lookup_union, propsWeControl_lookup.
    repeat (case_decide; [subst; exfalso; apply Hk; by repeat constructor|]).
    unfold passThroughProps. destruct (attrs !! k) as [v|] eqn:Ha.
    + by rewrite union_Some_l.
    + rewrite (left_id None _). case_bool_decide as Ho.
      * destruct Ho as [-> | ->]; [by rewrite lookup_delete_ne, lookup_delete_eq by done|].
        by rewrite lookup_delete_eq.
      * rewrite !lookup_delete_ne; [done|..]; intros <-; apply Ho; auto.
  - rewrite lookup_union, propsWeControl_lookup. decide_keys.
    rewrite union_Some_l. case_bool_decide; split; try done.
  - intros Hc. rewrite lookup_union, propsWeControl_lookup. decide_keys.
    rewrite union_Some_l. rewrite bool_decide_false; [done|]. by rewrite Hc.
  - rewrite lookup_union, propsWeControl_lookup. decide_keys. by rewrite union_Some_l.
  - rewrite lookup_union, propsWeControl_lookup. decide_keys. by rewrite union_Some_l.
Qed.

Lemma dialog_controls_its_props_witness :
  renderProps {[ "open" := ABool true; "as" := AString "div" ]}
              {[ "id" := AString "mine"; "class" := AString "modal" ]} ANull
              (mkInstance "headlessui-dialog-1" ∅ true true None []) !! "id"
  = propsWeControl ∅ ANull (mkInstance "headlessui-dialog-1" ∅ true true None []) !! "id".
Proof.
  refine (proj1 (proj1 (dialog_controls_its_props _ _ ANull _ "id") _)).
  unfold controlledKeys. apply list_elem_of_further, list_elem_of_here.
Defined.

Lemma apply_frame d op :
  id (apply d op) = id d ∧ hooks (apply d op) = hooks d.
Proof.
  destruct op as [b| |t|m e]; cbn [apply]; try done.
  - destruct (setTitleId_frame t d) as (-> & _ & _ & _ & ->). done.
  - by destruct m.
Qed.

Lemma apply_enabled d op :
  op ≠ Updated → enabled (apply d op) = enabled d.
Proof.
  destruct op as [b| |t|m e]; cbn [apply]; try done; intros _.
  - by destruct (setTitleId_frame t d) as (_ & _ & _ & -> & _).
  - by destruct m.
Qed.

Lemma apply_open d op :
  (∀ b, op ≠ SetOpen b) → open (apply d op) = open d.
Proof.
  destruct op as [b| |t|m e]; cbn [apply]; try done; intros Hop.
  - by destruct (Hop b).
  - by destruct (setTitleId_frame t d) as (_ & _ & -> & _ & _).
  - by destruct m.
Qed.

Lemma setup_returns uid v d : setup uid v = Return d → ∃ b, v = VBool b.
Proof.
  intros Hs. unfold setup in Hs. destruct (negb _) in Hs; [done|].
  destruct (bool_decide (typeof v ≠ "boolean")) eqn:Ht; [done|].
  apply bool_decide_eq_false in Ht. apply dec_stable in Ht.
  destruct v; try discriminate Ht. by eexists.
Qed.

(** X13: a dialog that [setup] returned keeps its id and its hooks under
    every later change. Its [enabled] flag does not follow the [open] prop
    by itself: until the component has updated it has the value [setup]
    gave it, and after an update it agrees with the state of the dialog
    until the prop changes again. *)
Theorem enabled_follows_the_update (uid : nat) (v : JSValue) (d0 : Instance)
    (ops later : list DialogOp) :
  setup uid v = Return d0 →
  id (foldl apply d0 ops) = ("headlessui-dialog-" ++ pretty uid)%string ∧
  hooks (foldl apply d0 ops) = hooks d0 ∧
  (Updated ∉ ops → enabled (foldl apply d0 ops) = bool_decide (v = VBool true)) ∧
  ((∀ b, SetOpen b ∉ later) →
     let d := foldl apply d0 (ops ++ Updated :: later) in
     enabled d = bool_decide (dialogState d = Open)).
Proof.
  intros Hs.
  assert (id d0 = ("headlessui-dialog-" ++ pretty uid)%string ∧
          enabled d0 = bool_decide (v = VBool true)) as [Hid Hen].
  { destruct (setup_returns uid v d0 Hs) as [b ->].
    rewrite setup_boolean in Hs. injection Hs as <-. cbn.
    split; [done|]. by destruct b. }
  split; [|split; [|split]].
  - rewrite <- Hid. induction ops as [|op ops IH] using rev_ind; [done|].
    rewrite foldl_app. cbn [foldl]. by destruct (apply_frame (foldl apply d0 ops) op) as [-> _].
  - induction ops as [|op ops IH] using rev_ind; [done|].
    rewrite foldl_app. cbn [foldl]. by destruct (apply_frame (foldl apply d0 ops) op) as [_ ->].
  - rewrite <- Hen. induction ops as [|op ops IH] using rev_ind; [done|].
    intros Hn. rewrite foldl_app. cbn [foldl].
    rewrite apply_enabled; [apply IH|]; set_solver.
  - intros Hl d. unfold d. rewrite foldl_app. cbn [foldl apply].
    generalize (foldl apply d0 ops). intros d1.
    induction later as [|op later IH] using rev_ind; [done|].
    rewrite foldl_app. cbn [foldl].
    assert (op ≠ Updated ∨ op = Updated) as [Hop | ->]
      by (destruct op; auto; left; discriminate).
    + unfold dialogState. rewrite apply_enabled, apply_open; [apply IH|..]; try done.
      * intros b. specialize (Hl b). set_solver.
      * intros b ->. apply (Hl b). set_solver.
    + done.
Qed.

Lemma enabled_follows_the_update_witness :
  enabled (foldl apply
             (mkInstance "headlessui-dialog-3" ∅ true true None
                [OnUpdated; UseId; UseFocusTrap; UseInertOthers; UseStackProvider;
                 UseDescriptions; Provide; UseWindowEvent "mousedown";
                 WatchEffect; WatchEffect])
             [SetOpen false; Stack AddElement 4]) = true.
Proof.
  refine (proj1 (proj2 (proj2 (enabled_follows_the_update 3 (VBool true) _
            [SetOpen false; Stack AddElement 4] [] _))) _).
  - reflexivity.
  - intros H. repeat (apply elem_of_cons in H as [H|H]; [discriminate|]).
    by apply elem_of_nil in H.
Defined.

End DialogPartsFacts.
